(** * aiohttp.multidict: an ordered multi-valued dictionary

    A shallow embedding of [aiohttp/multidict.py] (the pure-Python
    implementation: [_MultiDict], [_CaseInsensitiveMultiDict],
    [MutableMultiDictMixin], the two mutable classes and the three views),
    followed by the properties of the specification, each proved or
    refuted on the embedding.

    Python objects that are mutated in place and shared by reference (the
    [_items] list of a map, which a view may keep a reference to) live in an
    explicit heap; every method is a computation in a state-and-exception
    monad over that heap.  An exception keeps the heap as it is at the
    moment it is raised, as in Python. *)

From Stdlib Require Import Ascii.
From stdpp Require Import base option list gmap strings.

Set Default Proof Using "Type".

(** ** Keys: text and case folding

    Keys are text, held as its UTF-8 bytes.  [str.upper] and [str.lower] are
    built-ins, not part of the module.  [upper] maps the letters a-z and
    leaves every other byte alone: it is [str.upper] on ASCII text (header
    names, the use the module is written for), and the properties below use
    of it only that it is idempotent, as [str.upper] is on every text.
    [lower] maps the letters A-Z and the six characters whose lower case
    [str.upper] does not take back to them; on ASCII text it is
    [str.lower]. *)

Definition upper_ascii (c : ascii) : ascii :=
  let n := nat_of_ascii c in
  if (97 <=? n)%nat && (n <=? 122)%nat then ascii_of_nat (n - 32) else c.

Definition lower_ascii (c : ascii) : ascii :=
  let n := nat_of_ascii c in
  if (65 <=? n)%nat && (n <=? 90)%nat then ascii_of_nat (n + 32) else c.

Fixpoint upper (s : string) : string :=
  match s with
  | EmptyString => EmptyString
  | String c s' => String (upper_ascii c) (upper s')
  end.

(** [str.lower]: U+0130, U+03F4, U+1E9E, U+2126 (ohm sign), U+212A (kelvin
    sign) and U+212B (angstrom sign) become [i] followed by U+0307, U+03B8,
    U+00DF, U+03C9, [k] and U+00E5. *)
Fixpoint lower (s : string) : string :=
  match s with
  | EmptyString => EmptyString
  | String "196" (String "176" s') =>
      String "i" (String "204" (String "135" (lower s')))
  | String "207" (String "180" s') => String "206" (String "184" (lower s'))
  | String "225" (String "186" (String "158" s')) =>
      String "195" (String "159" (lower s'))
  | String "226" (String "132" (String "166" s')) =>
      String "207" (String "137" (lower s'))
  | String "226" (String "132" (String "170" s')) => String "k" (lower s')
  | String "226" (String "132" (String "171" s')) =>
      String "195" (String "165" (lower s'))
  | String c s' => String (lower_ascii c) (lower s')
  end.

(** [str.isascii]: every character is below U+0080. *)
Definition is_ascii_char (c : ascii) : bool := (nat_of_ascii c <? 128)%nat.

Fixpoint isascii (s : string) : bool :=
  match s with
  | EmptyString => true
  | String c s' => is_ascii_char c && isascii s'
  end.

(** The text of the single character U+212A, the kelvin sign. *)
Definition kelvin_sign : string :=
  String "226" (String "132" (String "170" EmptyString)).

(** [_cistr.__new__] on a text argument: the value is upper-cased once, and
    [_cistr.upper] returns the object itself. *)
Definition _cistr (val : string) : string := upper val.
Definition _cistr_upper (self : string) : string := self.

(** ** Exceptions and outcomes *)

Inductive exn : Type :=
| TypeError
| ValueError
| KeyError (key : string)
| IndexError
| AttributeError
| NotImplementedError.

Inductive outcome (A : Type) : Type :=
| Return (a : A)
| Raise (e : exn).
Arguments Return {A} a.
Arguments Raise {A} e.

(** The four concrete classes of the family. *)
Inductive class : Type :=
| _MultiDict
| _CaseInsensitiveMultiDict
| _MutableMultiDict
| _CaseInsensitiveMutableMultiDict.

Definition is_mutable (c : class) : bool :=
  match c with
  | _MutableMultiDict | _CaseInsensitiveMutableMultiDict => true
  | _ => false
  end.

Definition is_case_insensitive (c : class) : bool :=
  match c with
  | _CaseInsensitiveMultiDict | _CaseInsensitiveMutableMultiDict => true
  | _ => false
  end.

(** The key a class compares and stores: [key.upper()] in the
    case-insensitive classes, the key itself in the plain ones. *)
Definition fold_key (c : class) (key : string) : string :=
  if is_case_insensitive c then upper key else key.

Section multidict.
Context {V : Type} `{EqDecision V}.

(** An entry of the storage: a (key, value) pair. *)
Local Abbreviation entry := (string * V)%type.

(** A reference to a Python list of entries. *)
Local Abbreviation loc := nat.

(** The heap: the Python lists of entries that are alive. *)
Local Abbreviation heap := (gmap nat (list entry)).

(** ** The monad of heap computations that may raise *)

Definition M (A : Type) : Type := heap -> outcome A * heap.

Definition ret {A} (a : A) : M A := fun h => (Return a, h).

Definition raise {A} (e : exn) : M A := fun h => (Raise e, h).

Definition bind {A B} (c : M A) (k : A -> M B) : M B :=
  fun h =>
    match c h with
    | (Return a, h') => k a h'
    | (Raise e, h') => (Raise e, h')
    end.

Local Notation "x <- c ;; k" := (bind c (fun x => k))
  (at level 100, c at next level, right associativity).
Local Notation "c ;; k" := (bind c (fun _ => k))
  (at level 100, right associativity).

(** [try: c / except KeyError: pass] *)
Definition try_except_KeyError (c : M unit) : M unit :=
  fun h =>
    match c h with
    | (Raise (KeyError _), h') => (Return tt, h')
    | r => r
    end.

(** *** Python list objects *)

(** The current contents of the list object at [r]. *)
Definition load (r : loc) : M (list entry) :=
  fun h => (Return (default [] (h !! r)), h).

Definition store (r : loc) (l : list entry) : M unit :=
  fun h => (Return tt, <[r := l]> h).

(** [[]]: a new list object, distinct from every live one. *)
Definition alloc (l : list entry) : M loc :=
  fun h => let r := fresh (dom h) in (Return r, <[r := l]> h).

(** [r.append(x)], [r.extend(xs)], [r.clear()], [del r[i]] *)
Definition list_append (r : loc) (x : entry) : M unit :=
  l <- load r ;; store r (l ++ [x]).

Definition list_extend (r : loc) (xs : list entry) : M unit :=
  l <- load r ;; store r (l ++ xs).

Definition list_clear (r : loc) : M unit := store r [].

Definition list_delitem (r : loc) (i : nat) : M unit :=
  l <- load r ;;
  if decide (i < length l) then store r (delete i l) else raise IndexError.

(** ** Objects *)

(** A map of the family: its class and its [_items] attribute, a reference
    to the list of entries. *)
Record multidict : Type := MultiDictObject { cls : class; md_items : loc }.

(** A view ([_ViewBase.__slots__]): [_keys], a list of keys built by the
    constructor and referenced by nothing else, and [_items], a reference
    to a list of entries. *)
Record view : Type := ViewObject { view_keys : list string; view_items : loc }.

(** ** Views *)

(** One turn of the loop of [_ViewBase.__init__] for [getall=False]; the
    state is [(keys, self._keys, items_to_use)]. *)
Definition first_seen_step (st : gset string * list string * list entry)
    (i : entry) : gset string * list string * list entry :=
  let '(keys, _keys, items_to_use) := st in
  let key := i.1 in
  if decide (key ∈ keys) then st
  else ({[key]} ∪ keys, _keys ++ [key], items_to_use ++ [i]).

Definition first_seen_loop (items : list entry)
  : gset string * list string * list entry :=
  foldl first_seen_step (∅, [], []) items.

(** [_ViewBase.__init__(self, items, getall)]: with [getall] the view keeps
    the very list it was given ([items_to_use = items]); without, it fills
    a list of its own ([items_to_use = []]), which enters the heap once the
    loop has filled it, nothing being able to reach it before. *)
Definition ViewBase_init (items : loc) (getall : bool) : M view :=
  if getall then
    l <- load items ;;
    ret {| view_keys := l.*1; view_items := items |}
  else
    l <- load items ;;
    let '(_, _keys, items_to_use) := first_seen_loop l in
    r <- alloc items_to_use ;;
    ret {| view_keys := _keys; view_items := r |}.

(** [_ViewBase.__len__] *)
Definition ViewBase_len (self : view) : M nat :=
  l <- load (view_items self) ;; ret (length l).

(** [_ItemsView.__contains__] (its two assertions hold of every [item] of
    this type), [list(_ItemsView)] *)
Definition ItemsView_contains (self : view) (item : entry) : M bool :=
  l <- load (view_items self) ;; ret (bool_decide (item ∈ l)).

Definition ItemsView_iter (self : view) : M (list entry) :=
  load (view_items self).

(** [_ValuesView.__contains__], [list(_ValuesView)] *)
Definition ValuesView_contains (self : view) (value : V) : M bool :=
  l <- load (view_items self) ;; ret (bool_decide (value ∈ l.*2)).

Definition ValuesView_iter (self : view) : M (list V) :=
  l <- load (view_items self) ;; ret (l.*2).

(** [_KeysView.__contains__], [list(_KeysView)] *)
Definition KeysView_contains (self : view) (key : string) : M bool :=
  ret (bool_decide (key ∈ view_keys self)).

Definition KeysView_iter (self : view) : M (list string) :=
  ret (view_keys self).

(** [keys], [items], [values] of [_MultiDict] *)
Definition keys (self : multidict) (getall : bool) : M view :=
  ViewBase_init (md_items self) getall.

Definition items (self : multidict) (getall : bool) : M view :=
  ViewBase_init (md_items self) getall.

Definition values (self : multidict) (getall : bool) : M view :=
  ViewBase_init (md_items self) getall.

(** ** Lookups *)

(** [[v for k, v in self._items if k == key]] *)
Fixpoint matching_values (key : string) (l : list entry) : list V :=
  match l with
  | [] => []
  | (k, v) :: rest =>
      if decide (k = key) then v :: matching_values key rest
      else matching_values key rest
  end.

(** [for k, v in self._items: if k == key: return v] *)
Fixpoint first_value (key : string) (l : list entry) : option V :=
  match l with
  | [] => None
  | (k, v) :: rest => if decide (k = key) then Some v else first_value key rest
  end.

(** [_MultiDict.getall]; [default = None] stands for the [_marker]. *)
Definition MultiDict_getall (self : multidict) (key : string)
    (default : option (list V)) : M (list V) :=
  l <- load (md_items self) ;;
  match matching_values key l, default with
  | v :: res, _ => ret (v :: res)
  | [], Some d => ret d
  | [], None => raise (KeyError key)
  end.

Definition MultiDict_getone (self : multidict) (key : string)
    (default : option V) : M V :=
  l <- load (md_items self) ;;
  match first_value key l, default with
  | Some v, _ => ret v
  | None, Some d => ret d
  | None, None => raise (KeyError key)
  end.

Definition MultiDict_getitem (self : multidict) (key : string) : M V :=
  l <- load (md_items self) ;;
  match first_value key l with
  | Some v => ret v
  | None => raise (KeyError key)
  end.

(** [_MultiDict.get]; the result [None] is the [default] of the caller. *)
Definition MultiDict_get (self : multidict) (key : string) : M (option V) :=
  l <- load (md_items self) ;; ret (first_value key l).

(** [for k, v in self._items: if k == key: return True] and [return False]
    after the loop *)
Fixpoint has_key (key : string) (l : list entry) : bool :=
  match l with
  | [] => false
  | (k, _) :: rest => if decide (k = key) then true else has_key key rest
  end.

Definition MultiDict_contains (self : multidict) (key : string) : M bool :=
  l <- load (md_items self) ;; ret (has_key key l).

(** The methods as a caller reaches them: [_CaseInsensitiveMultiDict]
    overrides each lookup with [super().lookup(key.upper(), ...)]. *)
Definition getall (self : multidict) (key : string)
    (default : option (list V)) : M (list V) :=
  if is_case_insensitive (cls self) then MultiDict_getall self (upper key) default
  else MultiDict_getall self key default.

Definition getone (self : multidict) (key : string) (default : option V) : M V :=
  if is_case_insensitive (cls self) then MultiDict_getone self (upper key) default
  else MultiDict_getone self key default.

Definition getitem (self : multidict) (key : string) : M V :=
  if is_case_insensitive (cls self) then MultiDict_getitem self (upper key)
  else MultiDict_getitem self key.

Definition get (self : multidict) (key : string) : M (option V) :=
  if is_case_insensitive (cls self) then MultiDict_get self (upper key)
  else MultiDict_get self key.

Definition contains (self : multidict) (key : string) : M bool :=
  if is_case_insensitive (cls self) then MultiDict_contains self (upper key)
  else MultiDict_contains self key.

(** [_MultiDict.__len__], [_MultiDict.__iter__] ([iter(self.keys())], the
    flag left at its default) *)
Definition len (self : multidict) : M nat :=
  l <- load (md_items self) ;; ret (length l).

Definition iter (self : multidict) : M (list string) :=
  v <- keys self true ;; KeysView_iter v.

(** ** Construction *)

(** An item of a sequence handed to the constructor or to [extend]: a pair,
    or a tuple of another length (none, one, or three and more elements). *)
Inductive seq_item : Type :=
| Pair (key : string) (value : V)
| Short (key : option string)
| Long (key : string) (value third : V) (more : list V).

(** [len(arg)] *)
Definition len_item (arg : seq_item) : nat :=
  match arg with
  | Pair _ _ => 2
  | Short None => 0
  | Short (Some _) => 1
  | Long _ _ _ more => 3 + length more
  end.

(** [key, value = arg] *)
Definition unpack (arg : seq_item) : option entry :=
  match arg with
  | Pair key value => Some (key, value)
  | _ => None
  end.

(** The positional argument of the constructor: a map of the family, any
    other object with an [items] attribute (given by the pairs its
    [items()] yields), an items view, or a sequence. *)
Inductive positional : Type :=
| ArgMultiDict (m : multidict)
| ArgMapping (pairs : list entry)
| ArgItemsView (v : view)
| ArgSequence (xs : list seq_item).

(** [for arg in args: if not len(arg) == 2: raise TypeError(...)] *)
Fixpoint check_pairs (args : list seq_item) : M (list entry) :=
  match args with
  | [] => ret []
  | arg :: rest =>
      if decide (len_item arg = 2) then
        match unpack arg with
        | Some p => ps <- check_pairs rest ;; ret (p :: ps)
        | None => raise TypeError
        end
      else raise TypeError
  end.

(** [_CaseInsensitiveMultiDict._fill] *)
Fixpoint CaseInsensitiveMultiDict_fill (self : multidict)
    (ipairs : list entry) : M unit :=
  match ipairs with
  | [] => ret tt
  | (key, value) :: rest =>
      let uppkey := upper key in
      list_append (md_items self) (uppkey, value) ;;
      CaseInsensitiveMultiDict_fill self rest
  end.

(** [self._fill(ipairs)]: [_MultiDict._fill] extends the list as a whole. *)
Definition _fill (self : multidict) (ipairs : list entry) : M unit :=
  if is_case_insensitive (cls self) then CaseInsensitiveMultiDict_fill self ipairs
  else list_extend (md_items self) ipairs.

(** [_MultiDict.__init__] on a new object of class [c], with the positional
    arguments [args] and the keyword arguments [kwargs]. *)
Definition MultiDict_init (c : class) (args : list positional)
    (kwargs : list entry) : M multidict :=
  if decide (1 < length args) then raise TypeError
  else
    r <- alloc [] ;;
    let self := {| cls := c; md_items := r |} in
    pairs <- match args with
             | [] => ret []
             | ArgMultiDict m :: _ => v <- items m true ;; ItemsView_iter v
             | ArgMapping pairs :: _ => ret pairs
             | ArgItemsView v :: _ =>
                 l <- ItemsView_iter v ;;
                 check_pairs (map (fun p : entry => Pair p.1 p.2) l)
             | ArgSequence xs :: _ => check_pairs xs
             end ;;
    _fill self (pairs ++ kwargs) ;;
    ret self.

(** [_CaseInsensitiveMultiDict._from_uppercase_multidict]: the new object
    shares the list of [dct]. *)
Definition _from_uppercase_multidict (c : class) (dct : multidict) : multidict :=
  {| cls := c; md_items := md_items dct |}.

(** [_MultiDict.copy] *)
Definition copy (self : multidict) : M multidict :=
  v <- items self true ;; MultiDict_init (cls self) [ArgItemsView v] [].

(** ** Equality *)

(** The right operand of [==]: a map of the family, a mapping from outside
    it (seen through [other.get(k, _marker)], [None] standing for the
    marker), or an object that is no mapping. *)
Inductive operand : Type :=
| OtherMultiDict (m : multidict)
| OtherMapping (other_get : string -> option V)
| NotMapping.

(** [for k, v in self.items(): nv = other.get(k, _marker); if v != nv:
    return False] and [return True] after the loop *)
Fixpoint eq_loop (other_get : string -> option V) (l : list entry) : bool :=
  match l with
  | [] => true
  | (k, v) :: rest =>
      if decide (other_get k = Some v) then eq_loop other_get rest else false
  end.

(** [_MultiDict.__eq__]; [None] is [NotImplemented]. *)
Definition eq (self : multidict) (other : operand) : M (option bool) :=
  match other with
  | NotMapping => ret None
  | OtherMultiDict m =>
      l1 <- load (md_items self) ;;
      l2 <- load (md_items m) ;;
      ret (Some (bool_decide (l1 = l2)))
  | OtherMapping other_get =>
      v <- items self true ;;
      l <- ItemsView_iter v ;;
      ret (Some (eq_loop other_get l))
  end.

(** ** Mutation ([MutableMultiDictMixin] and the overrides of
    [_CaseInsensitiveMutableMultiDict]) *)

Definition Mixin_add (self : multidict) (key : string) (value : V) : M unit :=
  list_append (md_items self) (key, value).

(** [self.add(key, value)]; the read-only classes have no such attribute. *)
Definition add (self : multidict) (key : string) (value : V) : M unit :=
  match cls self with
  | _MutableMultiDict => Mixin_add self key value
  | _CaseInsensitiveMutableMultiDict => Mixin_add self (upper key) value
  | _ => raise AttributeError
  end.

(** The positional argument of [extend]: an object with an [items]
    attribute (given by the pairs its [items()] yields) or a sequence.  A
    map of the family, or a view of one, is covered when it does not share
    the list of [self]; iterating the list that [add] is growing is not
    modelled here but by [extend_live_loop] below. *)
Inductive extend_arg : Type :=
| ExtMapping (pairs : list entry)
| ExtSequence (xs : list seq_item).

(** [for key, value in chain(items, kwargs.items()): self.add(key, value)];
    unpacking an item that is not a pair raises [ValueError]. *)
Fixpoint extend_loop (self : multidict) (its : list seq_item) : M unit :=
  match its with
  | [] => ret tt
  | it :: rest =>
      match unpack it with
      | Some (key, value) => add self key value ;; extend_loop self rest
      | None => raise ValueError
      end
  end.

Definition as_items (pairs : list entry) : list seq_item :=
  map (fun p : entry => Pair p.1 p.2) pairs.

Definition extend (self : multidict) (args : list extend_arg)
    (kwargs : list entry) : M unit :=
  if negb (is_mutable (cls self)) then raise AttributeError
  else if decide (1 < length args) then raise TypeError
  else
    let items :=
      match args with
      | [] => []
      | ExtMapping pairs :: _ => as_items pairs
      | ExtSequence xs :: _ => xs
      end in
    extend_loop self (items ++ as_items kwargs).

(** [extend] with an argument that is read through a list of the heap: a
    map of the family ([items = args[0].items()], a view that keeps the
    list of the map) or an items view ([items = args[0]]).  The loop
    [for key, value in items: self.add(key, value)] steps a list iterator
    over the list object at [src]: at each turn it ends if its index [i] has
    reached the current length of the list, and otherwise takes the entry
    at [i], while [add] may be lengthening that very list.  The result is
    [None] when [fuel] turns do not end the loop. *)
Fixpoint extend_live_loop (fuel : nat) (self : multidict) (src : loc) (i : nat)
    (h : heap) : option (outcome unit * heap) :=
  match fuel with
  | 0 => None
  | S fuel' =>
      match default [] (h !! src) !! i with
      | None => Some (Return tt, h)
      | Some (key, value) =>
          match add self key value h with
          | (Return _, h') => extend_live_loop fuel' self src (S i) h'
          | (Raise e, h') => Some (Raise e, h')
          end
      end
  end.

Definition extend_from_list (fuel : nat) (self : multidict) (src : loc)
    (kwargs : list entry) (h : heap) : option (outcome unit * heap) :=
  if negb (is_mutable (cls self)) then Some (Raise AttributeError, h)
  else
    match extend_live_loop fuel self src 0 h with
    | Some (Return _, h') => Some (extend_loop self (as_items kwargs) h')
    | r => r
    end.

(** [self.extend(other, **kwargs)] for a map [other] of the family, and
    [self.extend(v, **kwargs)] for an items view [v]. *)
Definition extend_multidict (fuel : nat) (self other : multidict)
    (kwargs : list entry) (h : heap) : option (outcome unit * heap) :=
  extend_from_list fuel self (md_items other) kwargs h.

Definition extend_items_view (fuel : nat) (self : multidict) (v : view)
    (kwargs : list entry) (h : heap) : option (outcome unit * heap) :=
  extend_from_list fuel self (view_items v) kwargs h.

Definition clear (self : multidict) : M unit :=
  if is_mutable (cls self) then list_clear (md_items self)
  else raise AttributeError.

(** The loop of [MutableMultiDictMixin.__delitem__]: [n] is the number of
    indices still to visit, [n - 1] the index visited next; the result is
    [found]. *)
Fixpoint delitem_loop (items : loc) (key : string) (n : nat) (found : bool)
  : M bool :=
  match n with
  | 0 => ret found
  | S i =>
      l <- load items ;;
      match l !! i with
      | None => raise IndexError
      | Some (k, _) =>
          if decide (k = key) then
            list_delitem items i ;; delitem_loop items key i true
          else delitem_loop items key i found
      end
  end.

Definition Mixin_delitem (self : multidict) (key : string) : M unit :=
  let items := md_items self in
  l <- load items ;;
  found <- delitem_loop items key (length l) false ;;
  if found then ret tt else raise (KeyError key).

(** [del self[key]]; the read-only classes do not support it. *)
Definition delitem (self : multidict) (key : string) : M unit :=
  match cls self with
  | _MutableMultiDict => Mixin_delitem self key
  | _CaseInsensitiveMutableMultiDict => Mixin_delitem self (upper key)
  | _ => raise TypeError
  end.

Definition Mixin_setitem (self : multidict) (key : string) (value : V) : M unit :=
  try_except_KeyError (delitem self key) ;;
  list_append (md_items self) (key, value).

(** [self[key] = value] *)
Definition setitem (self : multidict) (key : string) (value : V) : M unit :=
  match cls self with
  | _MutableMultiDict => Mixin_setitem self key value
  | _CaseInsensitiveMutableMultiDict => Mixin_setitem self (upper key) value
  | _ => raise TypeError
  end.

(** [MutableMultiDictMixin.setdefault]; no class overrides it. *)
Definition setdefault (self : multidict) (key : string) (default : V) : M V :=
  if negb (is_mutable (cls self)) then raise AttributeError
  else
    l <- load (md_items self) ;;
    match first_value key l with
    | Some v => ret v
    | None => list_append (md_items self) (key, default) ;; ret default
    end.

(** [pop], [popitem], [update]: "Method not allowed." *)
Definition pop (self : multidict) (key : string) : M V :=
  if is_mutable (cls self) then raise NotImplementedError else raise AttributeError.

Definition popitem (self : multidict) : M entry :=
  if is_mutable (cls self) then raise NotImplementedError else raise AttributeError.

Definition update (self : multidict) (args : list extend_arg) : M unit :=
  if is_mutable (cls self) then raise NotImplementedError else raise AttributeError.

(** ** The entries of a map in a heap *)

(** The contents of [self._items] in the heap [h]. *)
Definition entries (h : heap) (self : multidict) : list entry :=
  default [] (h !! md_items self).

(** The entries whose key is not [key], in their order. *)
Definition without (key : string) (l : list entry) : list entry :=
  filter (fun e : entry => e.1 <> key) l.

(** [(key.upper(), value)] in a case-insensitive class, the pair itself in
    a plain one. *)
Definition fold_entry (c : class) (p : entry) : entry := (fold_key c p.1, p.2).

(** ** Sequences of mutations *)

(** A mutation a caller can ask of a map. *)
Inductive operation : Type :=
| OpAdd (key : string) (value : V)
| OpExtend (args : list extend_arg) (kwargs : list entry)
| OpSetitem (key : string) (value : V)
| OpDelitem (key : string)
| OpSetdefault (key : string) (default : V)
| OpClear.

Definition perform (self : multidict) (op : operation) : M unit :=
  match op with
  | OpAdd key value => add self key value
  | OpExtend args kwargs => extend self args kwargs
  | OpSetitem key value => setitem self key value
  | OpDelitem key => delitem self key
  | OpSetdefault key default => _ <- setdefault self key default ;; ret tt
  | OpClear => clear self
  end.

(** The heap after a sequence of mutations; a caller that catches the
    exception of one goes on with the heap that one left. *)
Fixpoint perform_all (self : multidict) (ops : list operation) (h : heap) : heap :=
  match ops with
  | [] => h
  | op :: rest => perform_all self rest (perform self op h).2
  end.

Definition is_setdefault (op : operation) : bool :=
  match op with
  | OpSetdefault _ _ => true
  | _ => false
  end.

(** Every key of the list is in folded form: [key.upper() == key]. *)
Definition folded (l : list entry) : Prop :=
  Forall (fun e : entry => upper e.1 = e.1) l.

(** What a caller can observe of a view: its length, what iterating it
    yields and what it contains, for each of the three kinds of view. *)
Definition keys_observation (v : view) (probe : string) (h : heap)
  : outcome nat * outcome (list string) * outcome bool :=
  ((ViewBase_len v h).1, (KeysView_iter v h).1, (KeysView_contains v probe h).1).

Definition items_observation (v : view) (probe : entry) (h : heap)
  : outcome nat * outcome (list entry) * outcome bool :=
  ((ViewBase_len v h).1, (ItemsView_iter v h).1, (ItemsView_contains v probe h).1).

Definition values_observation (v : view) (probe : V) (h : heap)
  : outcome nat * outcome (list V) * outcome bool :=
  ((ViewBase_len v h).1, (ValuesView_iter v h).1, (ValuesView_contains v probe h).1).

(** ** The specification's reading of iteration and of equality

    These definitions follow the words of the specification, not the
    source; they are what the code is compared with. *)

(** "Unique keys in first-occurrence order". *)
Fixpoint first_occurrences (ks : list string) : list string :=
  match ks with
  | [] => []
  | k :: rest => k :: filter (fun k' => k' <> k) (first_occurrences rest)
  end.

(** Iterating over the map yields each distinct key once, in the order of
    first occurrence; [len] counts the entries. *)
Definition iterates_distinct_keys (self : multidict) (h : heap) : Prop :=
  exists n,
    iter self h = (Return (first_occurrences (entries h self).*1), h)
    /\ len self h = (Return n, h)
    /\ (~ NoDup (entries h self).*1 ->
        length (first_occurrences (entries h self).*1) < n).

(** Against a mapping from outside the family, [==] holds exactly when
    [other.get(k)] is the first value of [k] for every key [k] of the map. *)
Definition equal_by_first_values (self : multidict)
    (other_get : string -> option V) (h : heap) : Prop :=
  eq self (OtherMapping other_get) h = (Return (Some true), h)
  <-> forall k, k ∈ (entries h self).*1 ->
        other_get k = first_value k (entries h self).

(** [m.getall(k) == m.getall(k.upper()) == m.getall(k.lower())]: the three
    calls return the same list or all raise [KeyError]. *)
Definition getall_same_in_every_case (self : multidict) (k : string)
    (h : heap) : Prop :=
  (getall self (upper k) None h).1 = (getall self k None h).1
  /\ (getall self (lower k) None h).1 = (getall self k None h).1.

End multidict.

Notation "x <- c ;; k" := (bind c (fun x => k))
  (at level 100, c at next level, right associativity).
Notation "c ;; k" := (bind c (fun _ => k))
  (at level 100, right associativity).

(** * Concrete runs

    Maps with natural numbers as values, built by the constructor in the
    empty heap. *)

Open Scope string_scope.

(** [MutableMultiDict([("a", 1)])] *)
Definition one_entry_map : outcome multidict * gmap nat (list (string * nat)) :=
  MultiDict_init _MutableMultiDict [ArgSequence [Pair "a" 1]] [] ∅.

(** [MultiDict([("a", 1), ("b", 2), ("a", 3)])] *)
Definition repeated_key_map : outcome multidict * gmap nat (list (string * nat)) :=
  MultiDict_init _MultiDict
    [ArgSequence [Pair "a" 1; Pair "b" 2; Pair "a" 3]] [] ∅.

(** [MultiDict([("a", 1), ("a", 2)])] and the [get] of [{"a": 1}] *)
Definition two_values_map : outcome multidict * gmap nat (list (string * nat)) :=
  MultiDict_init _MultiDict [ArgSequence [Pair "a" 1; Pair "a" 2]] [] ∅.

Definition dict_a_1_get (k : string) : option nat :=
  if decide (k = "a") then Some 1 else None.

(** [CaseInsensitiveMutableMultiDict([("Key", 1)])] *)
Definition folded_key_map : outcome multidict * gmap nat (list (string * nat)) :=
  MultiDict_init _CaseInsensitiveMutableMultiDict [ArgSequence [Pair "Key" 1]] [] ∅.

(** [MutableMultiDict([("a", 1), ("b", 2), ("a", 3)])]: the object and the
    heap the constructor leaves. *)
Definition mutable_map : multidict :=
  {| cls := _MutableMultiDict; md_items := 0 |}.

Definition mutable_map_heap : gmap nat (list (string * nat)) :=
  {[ 0 := [("a", 1); ("b", 2); ("a", 3)] ]}.

(** [CaseInsensitiveMultiDict({"Content-Type": 7})]: the object and the
    heap the constructor leaves. *)
Definition header_map : multidict :=
  {| cls := _CaseInsensitiveMultiDict; md_items := 0 |}.

Definition header_map_heap : gmap nat (list (string * nat)) :=
  {[ 0 := [("CONTENT-TYPE", 7)] ]}.

(** A [CaseInsensitiveMutableMultiDict] whose storage holds a key that is
    not in upper case, as [m.setdefault("key", 2)] leaves it. *)
Definition mixed_case_map : multidict :=
  {| cls := _CaseInsensitiveMutableMultiDict; md_items := 0 |}.

Definition mixed_case_heap : gmap nat (list (string * nat)) :=
  {[ 0 := [("KEY", 1); ("key", 2)] ]}.

(** A second map, [MultiDict([("x", 7)])], built after [mutable_map]. *)
Definition second_map : multidict := {| cls := _MultiDict; md_items := 1 |}.

Definition two_maps_heap : gmap nat (list (string * nat)) :=
  <[ 1 := [("x", 7)] ]> mutable_map_heap.

(** The [get] of [{"a": 1, "z": 9}] *)
Definition dict_a_1_z_9_get (k : string) : option nat :=
  if decide (k = "a") then Some 1
  else if decide (k = "z") then Some 9 else None.

Close Scope string_scope.

(** * Properties *)

Section properties.
Context {V : Type} `{EqDecision V}.

Local Abbreviation entry := (string * V)%type.
Local Abbreviation loc := nat.
Local Abbreviation heap := (gmap nat (list entry)).

(** ** Case folding *)

Lemma upper_ascii_idemp (c : ascii) : upper_ascii (upper_ascii c) = upper_ascii c.
Proof. destruct c as [[] [] [] [] [] [] [] []]; reflexivity. Qed.

Lemma upper_lower_ascii (c : ascii) : upper_ascii (lower_ascii c) = upper_ascii c.
Proof. destruct c as [[] [] [] [] [] [] [] []]; reflexivity. Qed.

Lemma upper_idemp (s : string) : upper (upper s) = upper s.
Proof.
  induction s as [|c s IH]; simpl; [reflexivity|].
  by rewrite upper_ascii_idemp, IH.
Qed.

Lemma lower_ascii_char (c : ascii) (s : string) :
  is_ascii_char c = true -> lower (String c s) = String (lower_ascii c) (lower s).
Proof.
  destruct c as [b0 b1 b2 b3 b4 b5 b6 []];
    [by destruct b0, b1, b2, b3, b4, b5, b6|].
  intros _. by destruct b0, b1, b2, b3, b4, b5, b6.
Qed.

(** On ASCII text lowering a key does not change its upper-case form. *)
Lemma upper_lower_isascii (s : string) :
  isascii s = true -> upper (lower s) = upper s.
Proof.
  induction s as [|c s IH]; [reflexivity|].
  cbn [isascii]. intros [Hc Hs]%andb_true_iff.
  rewrite lower_ascii_char by assumption. cbn [upper].
  by rewrite upper_lower_ascii, IH.
Qed.

(** A [_cistr] is in folded form, so that its own [upper], which returns
    the object, agrees with [str.upper]. *)
Lemma _cistr_upper_agrees (val : string) :
  _cistr_upper (_cistr val) = upper (_cistr val).
Proof. unfold _cistr_upper, _cistr. by rewrite upper_idemp. Qed.

Lemma fold_key_idemp (c : class) (k : string) :
  fold_key c (fold_key c k) = fold_key c k.
Proof. unfold fold_key. destruct (is_case_insensitive c); auto using upper_idemp. Qed.

Lemma has_key_spec (key : string) (l : list entry) :
  has_key key l = true <-> key ∈ l.*1.
Proof.
  induction l as [|[k v] l IH]; simpl.
  - split; [discriminate|]. intros Hin. by apply elem_of_nil in Hin.
  - rewrite elem_of_cons. destruct (decide (k = key)) as [->|Hne].
    + split; [by left|reflexivity].
    + rewrite IH. split; [by right|]. intros [Heq|Hin]; [congruence|exact Hin].
Qed.

Lemma matching_values_app (key : string) (l1 l2 : list entry) :
  matching_values key (l1 ++ l2) = matching_values key l1 ++ matching_values key l2.
Proof.
  induction l1 as [|[k v] l1 IH]; simpl; [reflexivity|].
  destruct (decide (k = key)); simpl; by rewrite IH.
Qed.

Lemma matching_values_without (key : string) (l : list entry) :
  matching_values key (without key l) = [].
Proof.
  unfold without. induction l as [|[k v] l IH]; simpl; [reflexivity|].
  rewrite filter_cons. simpl. destruct (decide (k <> key)) as [Hne|Heq]; simpl.
  - destruct (decide (k = key)); [contradiction|]. exact IH.
  - exact IH.
Qed.

Lemma without_id (key : string) (l : list entry) :
  key ∉ l.*1 -> without key l = l.
Proof.
  unfold without. induction l as [|[k v] l IH]; simpl; intros Hnin; [reflexivity|].
  rewrite filter_cons. simpl.
  apply not_elem_of_cons in Hnin as [Hne Hnin].
  destruct (decide (k <> key)) as [|Hn]; [|exfalso; apply Hn; congruence].
  by rewrite IH.
Qed.

Lemma without_app (key : string) (l1 l2 : list entry) :
  without key (l1 ++ l2) = without key l1 ++ without key l2.
Proof. apply filter_app. Qed.

Lemma without_idemp (key : string) (l : list entry) :
  without key (without key l) = without key l.
Proof.
  unfold without. induction l as [|[k v] l IH]; simpl; [reflexivity|].
  rewrite filter_cons. simpl. destruct (decide (k <> key)) as [Hne|Heq]; simpl.
  - rewrite filter_cons. simpl. destruct (decide (k <> key)); [|contradiction].
    by rewrite IH.
  - exact IH.
Qed.

(** ** Indexed deletion *)

Lemma take_S_lookup (l : list entry) (i : nat) (x : entry) :
  l !! i = Some x -> take (S i) l = take i l ++ [x].
Proof. intros Hi. by apply take_S_r. Qed.

Lemma delete_take_drop_entries (l : list entry) (i : nat) :
  delete i l = take i l ++ drop (S i) l.
Proof. apply delete_take_drop. Qed.

Lemma delitem_loop_spec (r : loc) (key : string) (n : nat) :
  forall (h : heap) (found : bool),
    n <= length (default [] (h !! r)) ->
    delitem_loop r key n found h =
      if bool_decide (key ∈ (take n (default [] (h !! r))).*1)
      then (Return true,
            <[r := without key (take n (default [] (h !! r)))
                   ++ drop n (default [] (h !! r))]> h)
      else (Return found, h).
Proof.
  induction n as [|i IH]; intros h found Hn.
  - reflexivity.
  - cbn [delitem_loop]. unfold bind at 1. unfold load at 1.
    set (l := default [] (h !! r)) in *.
    destruct (lookup_lt_is_Some_2 l i ltac:(lia)) as [[k v] Hi].
    rewrite Hi. rewrite (take_S_lookup l i (k, v) Hi).
    rewrite fmap_app. simpl.
    destruct (decide (k = key)) as [->|Hne].
    + unfold bind at 1. unfold list_delitem, bind, load. fold l.
      destruct (decide (i < length l)) as [_|]; [|lia].
      unfold store.
      rewrite IH; rewrite lookup_insert_eq; simpl.
      2:{ rewrite length_delete; [lia|]. eauto. }
      rewrite (bool_decide_eq_true_2 (key ∈ _ ++ [key])).
      2:{ apply elem_of_app. right. apply list_elem_of_singleton. reflexivity. }
      rewrite delete_take_drop_entries.
      rewrite take_app_le by (rewrite length_take; lia).
      rewrite take_take, Nat.min_id.
      rewrite drop_app_ge by (rewrite length_take; lia).
      rewrite length_take, Nat.min_l by lia. rewrite Nat.sub_diag, drop_0.
      rewrite without_app.
      replace (without key [(key, v)]) with (@nil entry).
      2:{ unfold without. rewrite filter_cons. simpl.
          destruct (decide (key <> key)); [congruence|reflexivity]. }
      rewrite app_nil_r.
      case_bool_decide as Hin.
      * by rewrite insert_insert_eq.
      * by rewrite without_id.
    + rewrite IH by (fold l; lia). fold l.
      assert (Hiff : key ∈ (take i l).*1 ++ [k] <-> key ∈ (take i l).*1).
      { rewrite elem_of_app, list_elem_of_singleton.
        split; [intros [?|?]; [assumption|congruence]|auto]. }
      rewrite (bool_decide_ext _ _ Hiff).
      case_bool_decide; [|reflexivity].
      rewrite without_app.
      replace (without key [(k, v)]) with [(k, v)].
      2:{ unfold without. rewrite filter_cons. simpl.
          destruct (decide (k <> key)); [reflexivity|contradiction]. }
      rewrite <- app_assoc. simpl.
      by rewrite (drop_S l (k, v) i Hi).
Qed.

Lemma Mixin_delitem_spec (self : multidict) (key : string) (h : heap) :
  Mixin_delitem self key h =
    if bool_decide (key ∈ (entries h self).*1)
    then (Return tt, <[md_items self := without key (entries h self)]> h)
    else (Raise (KeyError key), h).
Proof.
  unfold Mixin_delitem, bind at 1. unfold load at 1. unfold bind.
  rewrite delitem_loop_spec by reflexivity.
  fold (entries h self). rewrite firstn_all, drop_all, app_nil_r.
  by case_bool_decide.
Qed.

Lemma delitem_spec (self : multidict) (k : string) (h : heap) :
  is_mutable (cls self) = true ->
  delitem self k h = Mixin_delitem self (fold_key (cls self) k) h.
Proof. unfold delitem, fold_key. by destruct (cls self). Qed.

Lemma entries_insert (self : multidict) (l : list entry) (h : heap) :
  entries (<[md_items self := l]> h) self = l.
Proof. unfold entries. by rewrite lookup_insert_eq. Qed.

(** C7: [del m[k]] removes every entry whose (folded) key matches and keeps
    the other entries in their order, touching no other list; when no entry
    matches it raises [KeyError] and the heap, hence the storage of [m] and
    its length, is the one before the call. *)
Theorem delitem_removes_all_or_fails (self : multidict) (k : string) (h : heap) :
  is_mutable (cls self) = true ->
  let key := fold_key (cls self) k in
  (key ∈ (entries h self).*1 ->
     exists h',
       delitem self k h = (Return tt, h')
       /\ entries h' self = without key (entries h self)
       /\ forall r, r <> md_items self -> h' !! r = h !! r)
  /\ (key ∉ (entries h self).*1 ->
     delitem self k h = (Raise (KeyError key), h)).
Proof.
  intros Hmut key. rewrite delitem_spec by assumption. fold key.
  rewrite Mixin_delitem_spec. split; intros Hin.
  - rewrite bool_decide_eq_true_2 by assumption.
    eexists. split; [reflexivity|]. split.
    + apply entries_insert.
    + intros r Hr. by rewrite lookup_insert_ne.
  - by rewrite bool_decide_eq_false_2.
Qed.

(** ** Indexed assignment *)

Lemma list_append_spec (r : loc) (x : entry) (h : heap) :
  list_append r x h = (Return tt, <[r := default [] (h !! r) ++ [x]]> h).
Proof. reflexivity. Qed.

Lemma Mixin_setitem_spec (self : multidict) (key : string) (v : V) (h : heap) :
  is_mutable (cls self) = true ->
  fold_key (cls self) key = key ->
  Mixin_setitem self key v h =
    (Return tt, <[md_items self := without key (entries h self) ++ [(key, v)]]> h).
Proof.
  intros Hmut Hkey. unfold Mixin_setitem, bind, try_except_KeyError.
  rewrite delitem_spec, Hkey, Mixin_delitem_spec by assumption.
  case_bool_decide as Hin; rewrite list_append_spec.
  - by rewrite lookup_insert_eq, insert_insert_eq.
  - fold (entries h self). by rewrite without_id.
Qed.

Lemma setitem_spec (self : multidict) (k : string) (v : V) (h : heap) :
  is_mutable (cls self) = true ->
  setitem self k v h =
    (Return tt,
     <[md_items self :=
         without (fold_key (cls self) k) (entries h self)
         ++ [(fold_key (cls self) k, v)]]> h).
Proof.
  intros Hmut.
  assert (Hs : setitem self k v h
               = Mixin_setitem self (fold_key (cls self) k) v h).
  { unfold setitem, fold_key. by destruct (cls self). }
  rewrite Hs. apply Mixin_setitem_spec; [assumption|apply fold_key_idemp].
Qed.

Lemma getall_spec (self : multidict) (k : string) (d : option (list V)) (h : heap) :
  getall self k d h = MultiDict_getall self (fold_key (cls self) k) d h.
Proof. unfold getall, fold_key. by destruct (is_case_insensitive (cls self)). Qed.

(** C6: [m[k] = v] never fails; it removes every entry whose key matches,
    appends the one entry [(k, v)] at the end, leaves the entries of the
    other keys in their order and the other lists of the heap as they
    were, and afterwards [m.getall(k) == [v]].  The key that is matched and
    stored is [k] itself in a [_MutableMultiDict] and [k.upper()] in a
    [_CaseInsensitiveMutableMultiDict]. *)
Theorem setitem_replaces_all_with_one (self : multidict) (k : string) (v : V)
    (h : heap) :
  is_mutable (cls self) = true ->
  let key := fold_key (cls self) k in
  (cls self = _MutableMultiDict -> key = k)
  /\ exists h',
    setitem self k v h = (Return tt, h')
    /\ entries h' self = without key (entries h self) ++ [(key, v)]
    /\ without key (entries h' self) = without key (entries h self)
    /\ getall self k None h' = (Return [v], h')
    /\ forall r, r <> md_items self -> h' !! r = h !! r.
Proof.
  intros Hmut key. split; [by intros Hcls; unfold key; rewrite Hcls|].
  eexists. split; [by apply setitem_spec|]. fold key.
  rewrite entries_insert. split; [reflexivity|]. split; [|split].
  - rewrite without_app, without_idemp. unfold without at 2.
    rewrite filter_cons. simpl.
    destruct (decide (key <> key)); [congruence|]. by rewrite app_nil_r.
  - rewrite getall_spec. fold key. unfold MultiDict_getall, bind, load.
    rewrite lookup_insert_eq. simpl.
    rewrite matching_values_app, matching_values_without. simpl.
    destruct (decide (key = key)); [reflexivity|congruence].
  - intros r Hr. by rewrite lookup_insert_ne.
Qed.

(** ** Lookups in a case-insensitive map *)

(** C8, as the code has it: in a case-insensitive map the outcome of
    [getall] (the list of values, the default or the [KeyError]) depends on
    the key through [key.upper()] only.  So [getall(k)] and
    [getall(k.upper())] have the same outcome, any two keys with the same
    upper-case form have the same outcome, and [getall(k.lower())] has the
    outcome of [getall(k)] for every ASCII key. *)
Theorem getall_depends_on_upper_key (self : multidict) (k k' : string)
    (d : option (list V)) (h : heap) :
  is_case_insensitive (cls self) = true ->
  getall self (upper k) d h = getall self k d h
  /\ (upper k' = upper k -> getall self k' d h = getall self k d h)
  /\ (isascii k = true -> getall self (lower k) d h = getall self k d h).
Proof.
  intros Hci. unfold getall. rewrite Hci. split; [|split].
  - by rewrite upper_idemp.
  - by intros ->.
  - intros Hk. by rewrite upper_lower_isascii.
Qed.

(** ** Iteration and length *)

(** C2, as the code has it: iterating over a map yields the key of every
    entry in storage order, duplicates included, so it yields exactly
    [len(m)] keys. *)
Theorem iter_yields_every_key (self : multidict) (h : heap) :
  iter self h = (Return (entries h self).*1, h)
  /\ len self h = (Return (length (entries h self).*1), h).
Proof.
  split; [reflexivity|].
  unfold len, bind, load, ret, entries. by rewrite length_fmap.
Qed.

(** ** Equality *)

Lemma eq_loop_spec (g : string -> option V) (l : list entry) :
  eq_loop g l = true <-> forall k v, (k, v) ∈ l -> g k = Some v.
Proof.
  induction l as [|[k v] l IH]; simpl.
  - split; [|reflexivity]. intros _ k v Hin. by apply elem_of_nil in Hin.
  - destruct (decide (g k = Some v)) as [Hg|Hg].
    + rewrite IH. split.
      * intros Hl k' v' Hin. apply elem_of_cons in Hin as [Heq|Hin].
        -- by inversion Heq; subst.
        -- by apply Hl.
      * intros Hl k' v' Hin. apply Hl. by apply elem_of_cons; right.
    + split; [discriminate|]. intros Hl. exfalso. apply Hg, Hl.
      by apply elem_of_cons; left.
Qed.

(** C3, as the code has it: against a mapping from outside the family,
    [m == other] holds exactly when [other.get(k)] equals [v] for every
    entry [(k, v)] of [m], the later entries of a key included. *)
Theorem eq_mapping_checks_every_entry (self : multidict)
    (other_get : string -> option V) (h : heap) :
  exists b : bool,
    eq self (OtherMapping other_get) h = (Return (Some b), h)
    /\ (b = true <->
        forall k v, (k, v) ∈ entries h self -> other_get k = Some v).
Proof.
  exists (eq_loop other_get (entries h self)). split; [reflexivity|].
  apply eq_loop_spec.
Qed.


(** ** Construction and copy *)

Lemma eq_multidict_spec (self other : multidict) (h : heap) :
  eq self (OtherMultiDict other) h
  = (Return (Some (bool_decide (entries h self = entries h other))), h).
Proof. reflexivity. Qed.

Lemma check_pairs_as_items (l : list entry) (h : heap) :
  check_pairs (as_items l) h = (Return l, h).
Proof.
  induction l as [|[k v] l IH]; simpl; [reflexivity|].
  unfold bind. by rewrite IH.
Qed.

Lemma CaseInsensitiveMultiDict_fill_spec (self : multidict) (ipairs : list entry) :
  forall (h : heap) (l : list entry),
    h !! md_items self = Some l ->
    CaseInsensitiveMultiDict_fill self ipairs h
    = (Return tt,
       <[md_items self := l ++ map (fun p : entry => (upper p.1, p.2)) ipairs]> h).
Proof.
  induction ipairs as [|[k v] ipairs IH]; intros h l Hl; simpl.
  - unfold ret. by rewrite app_nil_r, insert_id.
  - unfold bind. rewrite list_append_spec, Hl. simpl.
    rewrite (IH _ (l ++ [(upper k, v)])) by apply lookup_insert_eq.
    by rewrite insert_insert_eq, <- app_assoc.
Qed.

Lemma _fill_spec (self : multidict) (ipairs : list entry) (h : heap)
    (l : list entry) :
  h !! md_items self = Some l ->
  _fill self ipairs h
  = (Return tt, <[md_items self := l ++ map (fold_entry (cls self)) ipairs]> h).
Proof.
  intros Hl. unfold _fill, fold_entry, fold_key.
  destruct (is_case_insensitive (cls self)).
  - by apply CaseInsensitiveMultiDict_fill_spec.
  - unfold list_extend, bind, load, store. rewrite Hl. simpl.
    do 3 f_equal. clear. induction ipairs as [|[k v] ipairs IH]; simpl; congruence.
Qed.

(** The constructor on a mapping from outside the family, or on a sequence
    of pairs, with keyword arguments. *)
Lemma MultiDict_init_mapping (c : class) (pairs kwargs : list entry) (h : heap) :
  MultiDict_init c [ArgMapping pairs] kwargs h
  = (Return {| cls := c; md_items := fresh (dom h) |},
     <[fresh (dom h) := map (fold_entry c) (pairs ++ kwargs)]> h).
Proof.
  unfold MultiDict_init. simpl. unfold bind at 1. unfold alloc at 1.
  unfold bind at 1. unfold ret at 1. unfold bind.
  rewrite (_fill_spec _ _ _ []) by apply lookup_insert_eq. simpl.
  by rewrite insert_insert_eq.
Qed.

Lemma MultiDict_init_sequence (c : class) (pairs kwargs : list entry) (h : heap) :
  MultiDict_init c [ArgSequence (as_items pairs)] kwargs h
  = (Return {| cls := c; md_items := fresh (dom h) |},
     <[fresh (dom h) := map (fold_entry c) (pairs ++ kwargs)]> h).
Proof.
  unfold MultiDict_init. simpl. unfold bind at 1. unfold alloc at 1.
  unfold bind at 1. rewrite check_pairs_as_items. unfold bind.
  rewrite (_fill_spec _ _ _ []) by apply lookup_insert_eq. simpl.
  by rewrite insert_insert_eq.
Qed.

Lemma map_fold_entry_plain (c : class) (l : list entry) :
  is_case_insensitive c = false -> map (fold_entry c) l = l.
Proof.
  intros Hc. unfold fold_entry, fold_key. rewrite Hc.
  induction l as [|[k v] l IH]; simpl; congruence.
Qed.

Lemma fresh_not_live (h : heap) (r : loc) :
  is_Some (h !! r) -> fresh (dom h) <> r.
Proof.
  intros Hr Heq. apply elem_of_dom in Hr. rewrite <- Heq in Hr.
  by apply is_fresh in Hr.
Qed.

(** ** Equality inside the family *)

(** C10: for two maps of the family, of whatever classes, [==] is the
    comparison of the two stored sequences of entries and of nothing else;
    so a case-insensitive map built from some pairs and a plain map built
    from the same pairs with their keys folded are equal. *)
Theorem eq_family_compares_entries (self other : multidict) (h : heap)
    (pairs : list entry) :
  eq self (OtherMultiDict other) h
  = (Return (Some (bool_decide (entries h self = entries h other))), h)
  /\ exists (m1 m2 : multidict) (h' : heap),
       (m1 <- MultiDict_init _CaseInsensitiveMultiDict [ArgMapping pairs] [] ;;
        m2 <- MultiDict_init _MultiDict
                [ArgMapping (map (fold_entry _CaseInsensitiveMultiDict) pairs)]
                [] ;;
        b <- eq m1 (OtherMultiDict m2) ;;
        ret (m1, m2, b)) h
       = (Return (m1, m2, Some true), h')
       /\ cls m1 = _CaseInsensitiveMultiDict
       /\ cls m2 = _MultiDict.
Proof.
  split; [reflexivity|].
  set (folded_pairs := map (fold_entry _CaseInsensitiveMultiDict) pairs).
  set (r1 := fresh (dom h)).
  set (h1 := <[r1 := folded_pairs]> h).
  set (r2 := fresh (dom h1)).
  assert (Hne : r2 <> r1).
  { apply fresh_not_live. unfold h1. rewrite lookup_insert_eq. by eexists. }
  exists {| cls := _CaseInsensitiveMultiDict; md_items := r1 |},
         {| cls := _MultiDict; md_items := r2 |},
         (<[r2 := folded_pairs]> h1).
  split; [|by split].
  unfold bind at 1. rewrite MultiDict_init_mapping, app_nil_r.
  fold folded_pairs r1 h1.
  unfold bind at 1. rewrite MultiDict_init_mapping, app_nil_r.
  rewrite map_fold_entry_plain by reflexivity. fold r2.
  unfold bind. rewrite eq_multidict_spec. unfold entries, ret. simpl.
  rewrite lookup_insert_eq, lookup_insert_ne by assumption.
  unfold h1. rewrite lookup_insert_eq. simpl.
  by rewrite bool_decide_eq_true_2.
Qed.

(** The constructor on the items view of a live map: a new object over a
    new list that holds the (folded) entries of the map. *)
Lemma MultiDict_init_items (c : class) (self : multidict) (h : heap) :
  is_Some (h !! md_items self) ->
  (v <- items self true ;; MultiDict_init c [ArgItemsView v] []) h
  = (Return {| cls := c; md_items := fresh (dom h) |},
     <[fresh (dom h) := map (fold_entry c) (entries h self)]> h).
Proof.
  intros Hlive. pose proof (fresh_not_live h _ Hlive) as Hne.
  unfold bind at 1. unfold items, ViewBase_init, bind at 1, load at 1, ret at 1.
  unfold MultiDict_init. simpl. unfold bind at 1. unfold alloc at 1.
  unfold bind at 1. unfold bind at 1. unfold ItemsView_iter, load at 1. simpl.
  rewrite lookup_insert_ne by assumption.
  fold (entries h self). fold (as_items (entries h self)).
  rewrite check_pairs_as_items. unfold bind.
  rewrite (_fill_spec _ _ _ []) by apply lookup_insert_eq. simpl.
  by rewrite insert_insert_eq, app_nil_r.
Qed.

(** C9: for a plain map [m], the map of the same class built from
    [m.items()], which is what [m.copy()] builds, holds the entries of [m]
    in a list of its own, leaves [m] as it was, and is equal to [m]. *)
Theorem copy_is_equal_and_separate (self : multidict) (h : heap) :
  is_case_insensitive (cls self) = false ->
  is_Some (h !! md_items self) ->
  exists (m : multidict) (h' : heap),
    (v <- items self true ;; MultiDict_init (cls self) [ArgItemsView v] []) h
    = (Return m, h')
    /\ copy self h = (Return m, h')
    /\ cls m = cls self
    /\ md_items m <> md_items self
    /\ entries h' m = entries h self
    /\ entries h' self = entries h self
    /\ eq m (OtherMultiDict self) h' = (Return (Some true), h')
    /\ eq self (OtherMultiDict m) h' = (Return (Some true), h').
Proof.
  intros Hplain Hlive. pose proof (fresh_not_live h _ Hlive) as Hne.
  pose proof (MultiDict_init_items (cls self) self h Hlive) as Hrun.
  rewrite map_fold_entry_plain in Hrun by assumption.
  set (m := {| cls := cls self; md_items := fresh (dom h) |}) in *.
  set (h' := <[fresh (dom h) := entries h self]> h) in *.
  assert (Hm : entries h' m = entries h self) by apply entries_insert.
  assert (Hs : entries h' self = entries h self).
  { unfold entries, h'. by rewrite lookup_insert_ne. }
  exists m, h'.
  split; [exact Hrun|]. split; [exact Hrun|]. split; [reflexivity|].
  split; [exact Hne|]. split; [exact Hm|]. split; [exact Hs|].
  rewrite !eq_multidict_spec, Hm, Hs.
  by rewrite bool_decide_eq_true_2.
Qed.

(** ** Bulk insertion *)

Lemma add_spec (self : multidict) (k : string) (v : V) (h : heap) :
  is_mutable (cls self) = true ->
  add self k v h
  = (Return tt,
     <[md_items self := entries h self ++ [(fold_key (cls self) k, v)]]> h).
Proof. unfold add, fold_key. by destruct (cls self). Qed.

(** [extend] on well-formed pairs adds every pair, folded by the class. *)
Lemma extend_loop_pairs (self : multidict) (pairs : list entry) :
  is_mutable (cls self) = true ->
  forall (rest : list seq_item) (h : heap),
    extend_loop self (as_items pairs ++ rest) h
    = extend_loop self rest
        (if decide (pairs = []) then h
         else <[md_items self :=
                  entries h self ++ map (fold_entry (cls self)) pairs]> h).
Proof.
  intros Hmut. induction pairs as [|[k v] pairs IH]; intros rest h; simpl.
  - reflexivity.
  - unfold bind. rewrite add_spec by assumption. rewrite IH.
    destruct (decide (pairs = [])) as [->|Hne]; simpl; [reflexivity|].
    by rewrite entries_insert, insert_insert_eq, <- app_assoc.
Qed.

(** The failure of [extend] on a sequence: the pairs before the first item
    that is not a pair have been added when [ValueError] is raised. *)
Lemma extend_fails_after_prefix (self : multidict) (pairs : list entry)
    (bad : seq_item) (rest : list seq_item) (kwargs : list entry) (h : heap) :
  is_mutable (cls self) = true ->
  len_item bad <> 2 ->
  extend self [ExtSequence (as_items pairs ++ bad :: rest)] kwargs h
  = (Raise ValueError,
     if decide (pairs = []) then h
     else <[md_items self :=
              entries h self ++ map (fold_entry (cls self)) pairs]> h).
Proof.
  intros Hmut Hbad. unfold extend. rewrite Hmut. simpl.
  rewrite <- app_assoc. rewrite extend_loop_pairs by assumption. simpl.
  destruct bad as [k v|o|k v x more]; simpl in *; try congruence.
  - reflexivity.
  - reflexivity.
Qed.

(** ** What the mutations touch *)

Lemma extend_loop_heap (self : multidict) (its : list seq_item) :
  is_mutable (cls self) = true ->
  forall h : heap,
    (extend_loop self its h).2 = h
    \/ exists l, (extend_loop self its h).2 = <[md_items self := l]> h.
Proof.
  intros Hmut. induction its as [|it its IH]; intros h; simpl; [by left|].
  destruct (unpack it) as [[k v]|]; [|by left].
  unfold bind. rewrite add_spec by assumption. right.
  destruct (IH (<[md_items self :=
                    entries h self ++ [(fold_key (cls self) k, v)]]> h))
    as [->|[l ->]]; eexists; [reflexivity|].
  by rewrite insert_insert_eq.
Qed.

(** [setdefault] compares and stores the key as it is given. *)
Lemma setdefault_spec (self : multidict) (k : string) (d : V) (h : heap) :
  is_mutable (cls self) = true ->
  setdefault self k d h
  = match first_value k (entries h self) with
    | Some v => (Return v, h)
    | None => (Return d, <[md_items self := entries h self ++ [(k, d)]]> h)
    end.
Proof.
  intros Hmut. unfold setdefault. rewrite Hmut. simpl.
  unfold bind, load. simpl. fold (entries h self).
  by destruct (first_value k (entries h self)).
Qed.

(** A mutation of a map leaves the heap as it is or replaces the contents
    of the list of the map, and of that list only. *)
Lemma perform_heap (self : multidict) (op : operation) (h : heap) :
  (perform self op h).2 = h
  \/ exists l, (perform self op h).2 = <[md_items self := l]> h.
Proof.
  destruct (is_mutable (cls self)) eqn:Hmut.
  - destruct op as [k v|args kwargs|k v|k|k d|]; simpl.
    + rewrite add_spec by assumption. right. by eexists.
    + unfold extend. rewrite Hmut. simpl.
      destruct (decide (1 < length args)); [by left|].
      by apply extend_loop_heap.
    + rewrite setitem_spec by assumption. right. by eexists.
    + rewrite delitem_spec, Mixin_delitem_spec by assumption.
      case_bool_decide; [right; by eexists|by left].
    + unfold bind. rewrite setdefault_spec by assumption.
      destruct (first_value k _); [by left|]. right. by eexists.
    + unfold clear. rewrite Hmut. right. by eexists.
  - left. destruct op as [k v|args kwargs|k v|k|k d|]; simpl.
    + unfold add. by destruct (cls self).
    + unfold extend. by rewrite Hmut.
    + unfold setitem. by destruct (cls self).
    + unfold delitem. by destruct (cls self).
    + unfold bind, setdefault. by rewrite Hmut.
    + unfold clear. by rewrite Hmut.
Qed.

Lemma perform_frame (self : multidict) (op : operation) (h : heap) (r : loc) :
  r <> md_items self -> (perform self op h).2 !! r = h !! r.
Proof.
  intros Hr. destruct (perform_heap self op h) as [->|[l ->]]; [reflexivity|].
  by rewrite lookup_insert_ne.
Qed.

Lemma perform_all_frame (self : multidict) (ops : list operation) (r : loc) :
  r <> md_items self -> forall h : heap, perform_all self ops h !! r = h !! r.
Proof.
  intros Hr. induction ops as [|op ops IH]; intros h; simpl; [reflexivity|].
  rewrite IH. by apply perform_frame.
Qed.

(** ** The loop that keeps the first entry of each key *)

Lemma first_seen_loop_from (l : list entry) :
  forall (seen : gset string) (ks : list string) (its : list entry),
    (foldl first_seen_step (seen, ks, its) l).1.2
    = ks ++ filter (fun k => k ∉ seen) (first_occurrences l.*1)
    /\ (foldl first_seen_step (seen, ks, its) l).2.*1
       = its.*1 ++ filter (fun k => k ∉ seen) (first_occurrences l.*1).
Proof.
  induction l as [|[k v] l IH]; intros seen ks its; simpl.
  - by rewrite filter_nil, !app_nil_r.
  - destruct (decide (k ∈ seen)) as [Hin|Hnin].
    + rewrite filter_cons_False by (intros Hk; by apply Hk).
      rewrite list_filter_filter_l by (intros x Hx ->; by apply Hx).
      apply IH.
    + rewrite filter_cons_True by assumption.
      rewrite list_filter_filter.
      rewrite (list_filter_iff _ (fun x => x ∉ {[k]} ∪ seen)).
      2:{ intros x. rewrite not_elem_of_union, not_elem_of_singleton. tauto. }
      destruct (IH ({[k]} ∪ seen) (ks ++ [k]) (its ++ [(k, v)])) as [-> ->].
      rewrite fmap_app, <- !app_assoc. by split.
Qed.

(** With [getall=False] the keys of a view, and the keys of the entries it
    keeps, are the distinct keys of the storage in the order of their first
    occurrence. *)
Lemma first_seen_loop_keys (l : list entry) :
  (first_seen_loop l).1.2 = first_occurrences l.*1
  /\ (first_seen_loop l).2.*1 = first_occurrences l.*1.
Proof.
  unfold first_seen_loop.
  destruct (first_seen_loop_from l ∅ [] []) as [-> ->]. simpl.
  assert (Hall : forall (P : string -> Prop) `{!forall k, Decision (P k)}
                    (ks : list string),
             (forall k, P k) -> filter P ks = ks).
  { intros P HP ks Hk. induction ks as [|k ks IHks]; [reflexivity|].
    rewrite filter_cons_True by apply Hk. by rewrite IHks. }
  split; apply Hall; intros k; apply not_elem_of_empty.
Qed.

(** ** Views and later mutations *)

Lemma ViewBase_init_all (items : loc) (h : heap) :
  ViewBase_init items true h
  = (Return {| view_keys := (default [] (h !! items)).*1; view_items := items |}, h).
Proof. reflexivity. Qed.

Lemma ViewBase_init_first (items : loc) (h : heap) :
  ViewBase_init items false h
  = (Return {| view_keys := (first_seen_loop (default [] (h !! items))).1.2;
               view_items := fresh (dom h) |},
     <[fresh (dom h) := (first_seen_loop (default [] (h !! items))).2]> h).
Proof.
  unfold ViewBase_init, bind, load.
  by destruct (first_seen_loop (default [] (h !! items))) as [[seen ks] its].
Qed.

(** What is observed of a view depends on the heap through the list the
    view refers to, and on nothing else. *)
Lemma observation_same_list (v : view) (h h' : heap) :
  h' !! view_items v = h !! view_items v ->
  (forall probe, keys_observation v probe h' = keys_observation v probe h)
  /\ (forall probe, items_observation v probe h' = items_observation v probe h)
  /\ (forall probe, values_observation v probe h' = values_observation v probe h).
Proof.
  intros Hsame.
  unfold keys_observation, items_observation, values_observation,
    ViewBase_len, KeysView_iter, KeysView_contains, ItemsView_iter,
    ItemsView_contains, ValuesView_iter, ValuesView_contains, bind, load, ret.
  simpl. by rewrite Hsame.
Qed.

(** A view made with [getall=False] has a list of its own: whatever is done
    to the map afterwards, its length, the sequence it yields and what it
    contains are those of the moment it was made. *)
Lemma first_occurrence_view_is_snapshot (self : multidict) (h h1 : heap)
    (v : view) (ops : list operation) :
  is_Some (h !! md_items self) ->
  ViewBase_init (md_items self) false h = (Return v, h1) ->
  (forall probe, keys_observation v probe (perform_all self ops h1)
                 = keys_observation v probe h1)
  /\ (forall probe, items_observation v probe (perform_all self ops h1)
                    = items_observation v probe h1)
  /\ (forall probe, values_observation v probe (perform_all self ops h1)
                    = values_observation v probe h1).
Proof.
  intros Hlive Hinit. rewrite ViewBase_init_first in Hinit.
  injection Hinit as <- <-. apply observation_same_list. simpl.
  apply perform_all_frame. by apply fresh_not_live.
Qed.

(** A keys view made with [getall=True] has a list of keys of its own: what
    it yields and what it contains do not change. *)
Lemma keys_view_yields_snapshot (self : multidict) (h : heap) (v : view)
    (h' : heap) (probe : string) :
  ViewBase_init (md_items self) true h = (Return v, h) ->
  (KeysView_iter v h').1 = (KeysView_iter v h).1
  /\ (KeysView_contains v probe h').1 = (KeysView_contains v probe h).1.
Proof. intros _. by split. Qed.

(** A view made with [getall=True] refers to the list of the map itself:
    its length and, for items and values, what it yields are at all times
    those of the map. *)
Lemma all_entries_view_is_live (self : multidict) (h : heap) (v : view)
    (h' : heap) :
  ViewBase_init (md_items self) true h = (Return v, h) ->
  ViewBase_len v h' = (Return (length (entries h' self)), h')
  /\ ItemsView_iter v h' = (Return (entries h' self), h')
  /\ ValuesView_iter v h' = (Return (entries h' self).*2, h').
Proof.
  rewrite ViewBase_init_all. intros Hv. injection Hv as <-. by repeat split.
Qed.

(** ** Folded storage in the case-insensitive classes *)

Lemma folded_map_fold_entry (c : class) (l : list entry) :
  is_case_insensitive c = true -> folded (map (fold_entry c) l).
Proof.
  intros Hc. unfold folded, fold_entry, fold_key. rewrite Hc.
  induction l as [|[k v] l IH]; simpl; constructor; [apply upper_idemp|exact IH].
Qed.

Lemma folded_app (l1 l2 : list entry) :
  folded l1 -> folded l2 -> folded (l1 ++ l2).
Proof. unfold folded. intros. by apply Forall_app. Qed.

Lemma folded_without (key : string) (l : list entry) :
  folded l -> folded (without key l).
Proof.
  unfold folded, without. intros Hl. apply Forall_forall.
  intros e He. apply list_elem_of_filter in He as [_ He].
  rewrite Forall_forall in Hl. by apply Hl.
Qed.

Lemma folded_fold_key (c : class) (k : string) (v : V) :
  is_case_insensitive c = true -> folded [(fold_key c k, v)].
Proof.
  intros Hc. unfold folded, fold_key. rewrite Hc. constructor; [|constructor].
  apply upper_idemp.
Qed.

Lemma perform_readonly (self : multidict) (op : operation) (h : heap) :
  is_mutable (cls self) = false -> (perform self op h).2 = h.
Proof.
  intros Hmut. destruct op as [k v|args kwargs|k v|k|k d|]; simpl.
  - unfold add. by destruct (cls self).
  - unfold extend. by rewrite Hmut.
  - unfold setitem. by destruct (cls self).
  - unfold delitem. by destruct (cls self).
  - unfold bind, setdefault. by rewrite Hmut.
  - unfold clear. by rewrite Hmut.
Qed.

Lemma extend_loop_folded (self : multidict) (its : list seq_item) :
  is_mutable (cls self) = true ->
  is_case_insensitive (cls self) = true ->
  forall h : heap,
    folded (entries h self) -> folded (entries (extend_loop self its h).2 self).
Proof.
  intros Hmut Hci. induction its as [|it its IH]; intros h Hh; simpl; [exact Hh|].
  destruct (unpack it) as [[k v]|]; [|exact Hh].
  unfold bind. rewrite add_spec by assumption. apply IH.
  rewrite entries_insert. apply folded_app; [exact Hh|by apply folded_fold_key].
Qed.

(** Every mutation but [setdefault] keeps the keys of a case-insensitive
    map folded, whether it returns or raises. *)
Lemma folded_preserved (self : multidict) (op : operation) (h : heap) :
  is_case_insensitive (cls self) = true ->
  is_setdefault op = false ->
  folded (entries h self) ->
  folded (entries (perform self op h).2 self).
Proof.
  intros Hci Hop Hh. destruct (is_mutable (cls self)) eqn:Hmut.
  2:{ by rewrite perform_readonly. }
  destruct op as [k v|args kwargs|k v|k|k d|]; simpl; try discriminate Hop.
  - rewrite add_spec by assumption. simpl. rewrite entries_insert.
    apply folded_app; [exact Hh|by apply folded_fold_key].
  - unfold extend. rewrite Hmut. simpl.
    destruct (decide (1 < length args)); [exact Hh|].
    by apply extend_loop_folded.
  - rewrite setitem_spec by assumption. simpl. rewrite entries_insert.
    apply folded_app; [by apply folded_without|by apply folded_fold_key].
  - rewrite delitem_spec, Mixin_delitem_spec by assumption.
    case_bool_decide; [|exact Hh]. simpl. rewrite entries_insert.
    by apply folded_without.
  - unfold clear. rewrite Hmut. unfold list_clear, store. simpl.
    rewrite entries_insert. constructor.
Qed.

Lemma check_pairs_heap (xs : list seq_item) (h : heap) :
  (check_pairs xs h).2 = h.
Proof.
  induction xs as [|x xs IH]; simpl; [reflexivity|].
  destruct (decide (len_item x = 2)) as [_|_]; [|reflexivity].
  destruct (unpack x) as [p|]; [|reflexivity].
  unfold bind. destruct (check_pairs xs h) as [[ps|ex] h1]; simpl in *; congruence.
Qed.

(** The constructor of a case-insensitive class stores folded keys, for
    every argument it accepts. *)
Lemma MultiDict_init_folded (c : class) (args : list positional)
    (kwargs : list entry) (h h' : heap) (m : multidict) :
  is_case_insensitive c = true ->
  MultiDict_init c args kwargs h = (Return m, h') ->
  cls m = c /\ folded (entries h' m).
Proof.
  intros Hc. unfold MultiDict_init.
  destruct (decide (1 < length args)); [discriminate|].
  unfold bind at 1. unfold alloc at 1.
  set (r := fresh (dom h)). set (h1 := <[r := []]> h).
  set (self := {| cls := c; md_items := r |}).
  assert (Hfill : forall pairs,
             (_fill self (pairs ++ kwargs);; ret self) h1 = (Return m, h') ->
             cls m = c /\ folded (entries h' m)).
  { intros pairs. unfold bind.
    rewrite (_fill_spec self _ h1 []) by apply lookup_insert_eq.
    unfold ret. intros Hret. injection Hret as <- <-.
    split; [reflexivity|]. rewrite (entries_insert self). by apply folded_map_fold_entry. }
  destruct args as [|[m0|pairs|v|xs] args].
  - apply (Hfill []).
  - apply (Hfill (default [] (h1 !! md_items m0))).
  - apply (Hfill pairs).
  - unfold bind at 1. unfold bind at 1. unfold ItemsView_iter, load at 1.
    pose proof (check_pairs_heap
                  (map (fun p : entry => Pair p.1 p.2)
                     (default [] (h1 !! view_items v))) h1) as Hheap.
    destruct (check_pairs _ h1) as [[ps|e] h2]; simpl in Hheap; subst h2;
      [apply (Hfill ps)|discriminate].
  - unfold bind at 1.
    pose proof (check_pairs_heap xs h1) as Hheap.
    destruct (check_pairs xs h1) as [[ps|e] h2]; simpl in Hheap; subst h2;
      [apply (Hfill ps)|discriminate].
Qed.

(** The invariant of the case-insensitive classes, for the operations that
    keep it: after the construction and any sequence of [add], [extend],
    indexed assignments, indexed deletions and [clear], every stored key is
    in folded form. *)
Lemma storage_folded_without_setdefault (c : class) (args : list positional)
    (kwargs : list entry) (h h' : heap) (m : multidict)
    (ops : list operation) :
  is_case_insensitive c = true ->
  MultiDict_init c args kwargs h = (Return m, h') ->
  forallb (fun op => negb (is_setdefault op)) ops = true ->
  folded (entries (perform_all m ops h') m).
Proof.
  intros Hc Hinit Hops.
  destruct (MultiDict_init_folded c args kwargs h h' m Hc Hinit)
    as [Hcls Hfolded].
  clear Hinit. revert h' Hfolded.
  induction ops as [|op ops IH]; intros h' Hfolded; simpl; [exact Hfolded|].
  simpl in Hops. apply andb_true_iff in Hops as [Hop Hops].
  apply IH; [exact Hops|]. apply folded_preserved; [by rewrite Hcls| |exact Hfolded].
  by apply negb_true_iff.
Qed.

(** C1, as the code has it: a view made with [getall=False] has a list of
    its own, and whatever is done to the map afterwards its length, the
    sequence it yields and what it contains stay those of its creation; an
    items or a values view made with [getall=True] refers to the list of
    the map, and shows at all times the entries the map holds. *)
Theorem view_is_snapshot_or_shares_list (self : multidict) (h : heap)
    (ops : list operation) :
  is_Some (h !! md_items self) ->
  (exists v h1,
      keys self false h = (Return v, h1)
      /\ forall probe, keys_observation v probe (perform_all self ops h1)
                       = keys_observation v probe h1)
  /\ (exists v h1,
      items self false h = (Return v, h1)
      /\ forall probe, items_observation v probe (perform_all self ops h1)
                       = items_observation v probe h1)
  /\ (exists v h1,
      values self false h = (Return v, h1)
      /\ forall probe, values_observation v probe (perform_all self ops h1)
                       = values_observation v probe h1)
  /\ (exists v,
      items self true h = (Return v, h)
      /\ forall probe,
           items_observation v probe (perform_all self ops h)
           = (Return (length (entries (perform_all self ops h) self)),
              Return (entries (perform_all self ops h) self),
              Return (bool_decide
                        (probe ∈ entries (perform_all self ops h) self))))
  /\ (exists v,
      values self true h = (Return v, h)
      /\ forall probe,
           values_observation v probe (perform_all self ops h)
           = (Return (length (entries (perform_all self ops h) self)),
              Return (entries (perform_all self ops h) self).*2,
              Return (bool_decide
                        (probe ∈ (entries (perform_all self ops h) self).*2)))).
Proof.
  intros Hlive.
  destruct (ViewBase_init (md_items self) false h) as [o h1] eqn:Hinit.
  pose proof Hinit as Hv. rewrite ViewBase_init_first in Hv.
  destruct o as [v|e]; [|discriminate Hv].
  destruct (first_occurrence_view_is_snapshot self h h1 v ops Hlive Hinit)
    as (Hk & Hi & Hvs).
  unfold keys, items, values. rewrite Hinit.
  split; [by exists v, h1|]. split; [by exists v, h1|].
  split; [by exists v, h1|].
  rewrite ViewBase_init_all. split; eexists; (split; [reflexivity|]);
    intros probe; reflexivity.
Qed.

(** * Further properties of the module *)

(** ** The lookups of one key *)

Lemma first_value_head (key : string) (l : list entry) :
  first_value key l = head (matching_values key l).
Proof.
  induction l as [|[k v] l IH]; simpl; [reflexivity|].
  by destruct (decide (k = key)).
Qed.

Lemma has_key_matching_values (key : string) (l : list entry) :
  has_key key l = match matching_values key l with [] => false | _ => true end.
Proof.
  induction l as [|[k v] l IH]; simpl; [reflexivity|].
  by destruct (decide (k = key)).
Qed.

Lemma lookups_fold_key (self : multidict) (k : string) (h : heap) :
  (forall d, getall self k d h = MultiDict_getall self (fold_key (cls self) k) d h)
  /\ (forall d, getone self k d h = MultiDict_getone self (fold_key (cls self) k) d h)
  /\ getitem self k h = MultiDict_getitem self (fold_key (cls self) k) h
  /\ get self k h = MultiDict_get self (fold_key (cls self) k) h
  /\ contains self k h = MultiDict_contains self (fold_key (cls self) k) h.
Proof.
  unfold getall, getone, getitem, get, contains, fold_key.
  by destruct (is_case_insensitive (cls self)).
Qed.

(** X4: the single-value lookups and the containment test follow [getall]:
    when the list [getall] would return is empty, [getall], [getone] and
    indexing raise [KeyError] unless a default is given, [get] returns its
    default and the key is not in the map; otherwise [getone], indexing and
    [get] return the first element of that list, whatever default is
    given.  No lookup writes to the heap. *)
Theorem lookups_follow_getall (self : multidict) (k : string) (h : heap) :
  let key := fold_key (cls self) k in
  match matching_values key (entries h self) with
  | [] =>
      getall self k None h = (Raise (KeyError key), h)
      /\ getone self k None h = (Raise (KeyError key), h)
      /\ getitem self k h = (Raise (KeyError key), h)
      /\ get self k h = (Return None, h)
      /\ contains self k h = (Return false, h)
      /\ (forall d, getall self k (Some d) h = (Return d, h))
      /\ (forall d, getone self k (Some d) h = (Return d, h))
  | v :: vs =>
      (forall d, getall self k d h = (Return (v :: vs), h))
      /\ (forall d, getone self k d h = (Return v, h))
      /\ getitem self k h = (Return v, h)
      /\ get self k h = (Return (Some v), h)
      /\ contains self k h = (Return true, h)
  end.
Proof.
  intros key.
  destruct (lookups_fold_key self k h) as (Hall & Hone & Hitem & Hget & Hin).
  fold key in Hall, Hone, Hitem, Hget, Hin.
  assert (Hfirst : first_value key (entries h self)
                   = head (matching_values key (entries h self)))
    by apply first_value_head.
  assert (Hhas : has_key key (entries h self)
                 = match matching_values key (entries h self) with
                   | [] => false | _ => true end)
    by apply has_key_matching_values.
  destruct (matching_values key (entries h self)) as [|v vs] eqn:Hvs;
    simpl in Hfirst.
  - repeat split; try intros d;
      rewrite ?Hall, ?Hone, ?Hitem, ?Hget, ?Hin;
      unfold MultiDict_getall, MultiDict_getone, MultiDict_getitem,
        MultiDict_get, MultiDict_contains, bind, load, ret, raise;
      fold (entries h self); by rewrite ?Hvs, ?Hfirst, ?Hhas.
  - repeat split; try intros d;
      rewrite ?Hall, ?Hone, ?Hitem, ?Hget, ?Hin;
      unfold MultiDict_getall, MultiDict_getone, MultiDict_getitem,
        MultiDict_get, MultiDict_contains, bind, load, ret, raise;
      fold (entries h self); by rewrite ?Hvs, ?Hfirst, ?Hhas.
Qed.

(** X5: in a case-insensitive map the outcomes of [getone], indexing,
    [get] and the containment test depend on the key through
    [key.upper()] only: each has the same outcome for [k] and
    [k.upper()], for any two keys with the same upper-case form, and for
    [k] and [k.lower()] when [k] is ASCII text. *)
Theorem single_lookups_depend_on_upper_key (self : multidict) (k k' : string)
    (d : option V) (h : heap) :
  is_case_insensitive (cls self) = true ->
  (getone self (upper k) d h = getone self k d h
   /\ getitem self (upper k) h = getitem self k h
   /\ get self (upper k) h = get self k h
   /\ contains self (upper k) h = contains self k h)
  /\ (upper k' = upper k ->
      getone self k' d h = getone self k d h
      /\ getitem self k' h = getitem self k h
      /\ get self k' h = get self k h
      /\ contains self k' h = contains self k h)
  /\ (isascii k = true ->
      getone self (lower k) d h = getone self k d h
      /\ getitem self (lower k) h = getitem self k h
      /\ get self (lower k) h = get self k h
      /\ contains self (lower k) h = contains self k h).
Proof.
  intros Hci. unfold getone, getitem, get, contains. rewrite Hci.
  split; [|split].
  - by rewrite upper_idemp.
  - by intros ->.
  - intros Hk. by rewrite upper_lower_isascii.
Qed.

(** ** The constructor *)

Lemma len_item_2_unpack (it : @seq_item V) :
  len_item it = 2 -> exists k v, it = Pair k v.
Proof.
  destruct it as [k v|[k|]|k v x more]; simpl; intros Hlen;
    try discriminate Hlen; eauto.
Qed.

Lemma all_pairs_as_items (xs : list (@seq_item V)) :
  Forall (fun it : @seq_item V => len_item it = 2) xs ->
  exists pairs : list entry, xs = as_items pairs.
Proof.
  induction 1 as [|it xs Hit _ [pairs ->]]; [by exists []|].
  destruct (len_item_2_unpack it Hit) as (k & v & ->).
  by exists ((k, v) :: pairs).
Qed.

Lemma check_pairs_rejects (xs : list (@seq_item V)) (h : heap) :
  ~ Forall (fun it : @seq_item V => len_item it = 2) xs ->
  check_pairs xs h = (Raise TypeError, h).
Proof.
  induction xs as [|it xs IH]; intros Hbad; [by destruct Hbad|]. simpl.
  destruct (decide (len_item it = 2)) as [Hlen|Hlen]; [|reflexivity].
  destruct (len_item_2_unpack it Hlen) as (k & v & ->). simpl.
  unfold bind. rewrite IH; [reflexivity|].
  intros Hxs. apply Hbad. by constructor.
Qed.

(** X1: given a sequence, the constructor builds a map exactly when every
    item of the sequence has length two; the map then holds the items, in
    order, followed by the keyword pairs (keys folded in a case-insensitive
    class).  Otherwise it raises [TypeError], whatever the position of the
    offending item, and no list that existed before the call is changed. *)
Theorem constructor_accepts_exactly_pairs (c : class) (xs : list (@seq_item V))
    (kwargs : list entry) (h : heap) :
  if decide (Forall (fun it : @seq_item V => len_item it = 2) xs)
  then exists pairs : list entry,
         xs = as_items pairs
         /\ MultiDict_init c [ArgSequence xs] kwargs h
            = (Return {| cls := c; md_items := fresh (dom h) |},
               <[fresh (dom h) := map (fold_entry c) (pairs ++ kwargs)]> h)
  else MultiDict_init c [ArgSequence xs] kwargs h
       = (Raise TypeError, <[fresh (dom h) := []]> h).
Proof.
  destruct (decide (Forall _ xs)) as [Hall|Hbad].
  - destruct (all_pairs_as_items xs Hall) as [pairs ->].
    exists pairs. split; [reflexivity|]. apply MultiDict_init_sequence.
  - unfold MultiDict_init. simpl. unfold bind at 1. unfold alloc at 1.
    unfold bind at 1. by rewrite check_pairs_rejects.
Qed.

(** X2: given a map of the family, the constructor builds a map over a new
    list holding the entries of the argument, in order, followed by the
    keyword pairs (keys folded in a case-insensitive class); the argument
    and every other list are left as they were. *)
Theorem constructor_from_multidict (c : class) (m0 : multidict)
    (kwargs : list entry) (h : heap) :
  is_Some (h !! md_items m0) ->
  exists (m : multidict) (h' : heap),
    MultiDict_init c [ArgMultiDict m0] kwargs h = (Return m, h')
    /\ cls m = c
    /\ md_items m <> md_items m0
    /\ entries h' m = map (fold_entry c) (entries h m0 ++ kwargs)
    /\ entries h' m0 = entries h m0
    /\ forall r, r <> md_items m -> h' !! r = h !! r.
Proof.
  intros Hlive. pose proof (fresh_not_live h _ Hlive) as Hne.
  exists {| cls := c; md_items := fresh (dom h) |},
         (<[fresh (dom h) := map (fold_entry c) (entries h m0 ++ kwargs)]> h).
  split.
  - unfold MultiDict_init. simpl. unfold bind at 1. unfold alloc at 1.
    unfold bind at 1. unfold bind at 1.
    unfold items, ViewBase_init, bind at 1, load at 1, ret at 1.
    unfold bind at 1. unfold ItemsView_iter, load at 1. simpl.
    rewrite lookup_insert_ne by assumption. fold (entries h m0).
    unfold bind.
    rewrite (_fill_spec _ _ _ []) by apply lookup_insert_eq. simpl.
    by rewrite insert_insert_eq.
  - split; [reflexivity|]. split; [exact Hne|]. split; [|split].
    + unfold entries. simpl. by rewrite lookup_insert_eq.
    + unfold entries. by rewrite lookup_insert_ne.
    + intros r Hr. by rewrite lookup_insert_ne.
Qed.

Lemma elem_of_matching_values (key : string) (v : V) (l : list entry) :
  v ∈ matching_values key l <-> (key, v) ∈ l.
Proof.
  induction l as [|[k w] l IH]; simpl.
  - split; intros Hin; by apply elem_of_nil in Hin.
  - rewrite elem_of_cons. destruct (decide (k = key)) as [->|Hne].
    + rewrite elem_of_cons, IH. split; intros [Heq|Hin]; auto; left; congruence.
    + rewrite IH. split; [by right|]. intros [Heq|Hin]; [congruence|exact Hin].
Qed.

(** X3: every pair given to the constructor, positionally or by keyword,
    is found again: the map counts one entry per pair, the key of the pair
    is in the map and its value is in the list [getall] returns for the
    key. *)
Theorem constructed_pairs_are_found (c : class) (pairs kwargs : list entry)
    (h : heap) (k : string) (v : V) :
  (k, v) ∈ pairs ++ kwargs ->
  exists (m : multidict) (h' : heap) (vs : list V),
    MultiDict_init c [ArgMapping pairs] kwargs h = (Return m, h')
    /\ len m h' = (Return (length pairs + length kwargs), h')
    /\ contains m k h' = (Return true, h')
    /\ getall m k None h' = (Return vs, h')
    /\ v ∈ vs.
Proof.
  intros Hin.
  set (m := {| cls := c; md_items := fresh (dom h) |}).
  set (l := map (fold_entry c) (pairs ++ kwargs)).
  set (h' := <[fresh (dom h) := l]> h).
  assert (Hentries : entries h' m = l) by apply (entries_insert m).
  assert (Hv : v ∈ matching_values (fold_key c k) l).
  { apply elem_of_matching_values. unfold l.
    change (fold_key c k, v) with (fold_entry c (k, v)).
    by apply list_elem_of_fmap_2. }
  exists m, h', (matching_values (fold_key c k) l).
  split; [apply MultiDict_init_mapping|]. split; [|split; [|split]].
  - unfold len, bind, load, ret. fold (entries h' m). rewrite Hentries.
    unfold l. by rewrite length_map, length_app.
  - destruct (lookups_fold_key m k h') as (_ & _ & _ & _ & ->).
    unfold MultiDict_contains, bind, load, ret. fold (entries h' m).
    rewrite Hentries, has_key_matching_values. simpl.
    destruct (matching_values (fold_key c k) l); [|reflexivity].
    by apply elem_of_nil in Hv.
  - rewrite getall_spec. unfold MultiDict_getall, bind, load.
    fold (entries h' m). rewrite Hentries. simpl.
    destruct (matching_values (fold_key c k) l); [|reflexivity].
    by apply elem_of_nil in Hv.
  - exact Hv.
Qed.

(** ** Mutations and the lookups that follow them *)

Lemma getall_outcome (self : multidict) (k : string) (d : option (list V))
    (h : heap) :
  getall self k d h
  = (match matching_values (fold_key (cls self) k) (entries h self), d with
     | v :: vs, _ => Return (v :: vs)
     | [], Some d => Return d
     | [], None => Raise (KeyError (fold_key (cls self) k))
     end, h).
Proof.
  rewrite getall_spec. unfold MultiDict_getall, bind, load.
  fold (entries h self).
  destruct (matching_values _ (entries h self)); [by destruct d|reflexivity].
Qed.

Lemma contains_outcome (self : multidict) (k : string) (h : heap) :
  contains self k h = (Return (has_key (fold_key (cls self) k) (entries h self)), h).
Proof. by destruct (lookups_fold_key self k h) as (_ & _ & _ & _ & ->). Qed.

Lemma getone_outcome (self : multidict) (k : string) (d : option V) (h : heap) :
  getone self k d h
  = (match first_value (fold_key (cls self) k) (entries h self), d with
     | Some v, _ => Return v
     | None, Some d => Return d
     | None, None => Raise (KeyError (fold_key (cls self) k))
     end, h).
Proof.
  destruct (lookups_fold_key self k h) as (_ & -> & _).
  unfold MultiDict_getone, bind, load. fold (entries h self).
  destruct (first_value _ (entries h self)); [reflexivity|by destruct d].
Qed.

Lemma matching_values_other_key (key key' : string) (v : V) :
  key' <> key -> matching_values key' [(key, v)] = [].
Proof. intros Hne. simpl. destruct (decide (key = key')); congruence. Qed.

Lemma matching_values_same_key (key : string) (v : V) :
  matching_values key [(key, v)] = [v].
Proof. simpl. destruct (decide (key = key)); congruence. Qed.

Lemma matching_values_without_ne (key key' : string) (l : list entry) :
  key' <> key -> matching_values key' (without key l) = matching_values key' l.
Proof.
  intros Hne. unfold without. induction l as [|[k v] l IH]; [reflexivity|].
  rewrite filter_cons. simpl. destruct (decide (k <> key)) as [Hk|Hk]; simpl.
  - by rewrite IH.
  - rewrite IH. destruct (decide (k = key')) as [->|]; [|reflexivity].
    exfalso. apply Hk. exact Hne.
Qed.

Lemma length_without (key : string) (l : list entry) :
  length (without key l) + length (matching_values key l) = length l.
Proof.
  unfold without. induction l as [|[k v] l IH]; [reflexivity|].
  rewrite filter_cons. simpl. destruct (decide (k <> key)) as [Hk|Hk]; simpl.
  - destruct (decide (k = key)); [congruence|]. by rewrite IH.
  - destruct (decide (k = key)) as [_|Hne]; [|by destruct Hk].
    simpl. rewrite <- IH. lia.
Qed.

Lemma without_same_key (key : string) (v : V) : without key [(key, v)] = [].
Proof.
  unfold without. rewrite filter_cons. simpl.
  destruct (decide (key <> key)); [congruence|reflexivity].
Qed.

Lemma has_key_without (key : string) (l : list entry) :
  has_key key (without key l) = false.
Proof.
  rewrite has_key_matching_values. by rewrite matching_values_without.
Qed.

Lemma first_value_app (key : string) (l1 l2 : list entry) :
  first_value key (l1 ++ l2)
  = match first_value key l1 with
    | Some v => Some v
    | None => first_value key l2
    end.
Proof.
  induction l1 as [|[k v] l1 IH]; simpl; [reflexivity|].
  by destruct (decide (k = key)).
Qed.

Lemma first_value_same_key (key : string) (v : V) :
  first_value key [(key, v)] = Some v.
Proof. simpl. destruct (decide (key = key)); congruence. Qed.

Lemma has_key_first_value (key : string) (l : list entry) :
  has_key key l = match first_value key l with Some _ => true | None => false end.
Proof.
  induction l as [|[k v] l IH]; simpl; [reflexivity|].
  by destruct (decide (k = key)).
Qed.

(** X6: [m.add(k, v)] lengthens the map by one entry; afterwards
    [m.getall(k)] is the list it was before (empty if the key was absent)
    with [v] added at its end, and [getall] of every other key has the
    outcome it had. *)
Theorem add_appends_one_value (self : multidict) (k : string) (v : V)
    (h : heap) :
  is_mutable (cls self) = true ->
  let key := fold_key (cls self) k in
  exists h',
    add self k v h = (Return tt, h')
    /\ len self h' = (Return (S (length (entries h self))), h')
    /\ (forall d, getall self k d h'
                  = (Return (matching_values key (entries h self) ++ [v]), h'))
    /\ (forall k' d, fold_key (cls self) k' <> key ->
                     (getall self k' d h').1 = (getall self k' d h).1)
    /\ forall r, r <> md_items self -> h' !! r = h !! r.
Proof.
  intros Hmut key. eexists. split; [by apply add_spec|]. fold key.
  split; [|split; [|split]].
  - unfold len, bind, load, ret. rewrite lookup_insert_eq. simpl.
    rewrite length_app. simpl. f_equal. f_equal. unfold entries. lia.
  - intros d. rewrite getall_outcome, entries_insert. fold key.
    rewrite matching_values_app, matching_values_same_key.
    destruct (matching_values key (entries h self) ++ [v]) as [|w ws] eqn:Hvs;
      [|reflexivity].
    by apply app_eq_nil in Hvs as [_ Hvs].
  - intros k' d Hne. rewrite !getall_outcome, entries_insert. simpl.
    rewrite matching_values_app, matching_values_other_key by assumption.
    by rewrite app_nil_r.
  - intros r Hr. by rewrite lookup_insert_ne.
Qed.

Lemma perform_all_adds (self : multidict) (l : list entry) :
  is_mutable (cls self) = true ->
  forall h : heap,
    entries (perform_all self (map (fun p : entry => OpAdd p.1 p.2) l) h) self
    = entries h self ++ map (fold_entry (cls self)) l.
Proof.
  intros Hmut. induction l as [|[k v] l IH]; intros h; simpl.
  - by rewrite app_nil_r.
  - rewrite add_spec by assumption. simpl. rewrite IH, entries_insert.
    by rewrite <- app_assoc.
Qed.

(** X7: [m.extend(...)] with an argument that yields a fixed list of pairs
    (a mapping from outside the family, or a sequence of pairs that is not
    read through the list of [m] itself) and with keyword pairs never
    fails; it adds the positional pairs and then the keyword pairs at the
    end of the storage, in order, with the key folding of [add], and leaves
    the storage that a sequence of [add] calls on the same pairs leaves.
    An argument that shares the list of [m] is the matter of
    [extend_with_a_map]. *)
Theorem extend_appends_all_pairs (self : multidict) (pairs kwargs : list entry)
    (h : heap) :
  is_mutable (cls self) = true ->
  exists h',
    extend self [ExtMapping pairs] kwargs h = (Return tt, h')
    /\ extend self [ExtSequence (as_items pairs)] kwargs h = (Return tt, h')
    /\ entries h' self
       = entries h self ++ map (fold_entry (cls self)) (pairs ++ kwargs)
    /\ entries (perform_all self
                  (map (fun p : entry => OpAdd p.1 p.2) (pairs ++ kwargs)) h)
         self
       = entries h' self
    /\ forall r, r <> md_items self -> h' !! r = h !! r.
Proof.
  intros Hmut.
  assert (Hrun : forall args,
             args = [ExtMapping pairs] \/ args = [ExtSequence (as_items pairs)] ->
             extend self args kwargs h
             = (Return tt,
                if decide (pairs ++ kwargs = []) then h
                else <[md_items self :=
                         entries h self
                         ++ map (fold_entry (cls self)) (pairs ++ kwargs)]> h)).
  { intros args Hargs. unfold extend. rewrite Hmut. simpl.
    assert (Hloop : extend_loop self (as_items pairs ++ as_items kwargs) h
                    = extend_loop self (as_items (pairs ++ kwargs) ++ []) h).
    { unfold as_items. by rewrite app_nil_r, map_app. }
    destruct Hargs as [-> | ->]; simpl; rewrite Hloop;
      by rewrite extend_loop_pairs. }
  eexists. split; [apply Hrun; by left|]. split; [apply Hrun; by right|].
  rewrite perform_all_adds by assumption.
  destruct (decide (pairs ++ kwargs = [])) as [Hnil|Hcons].
  - rewrite Hnil. simpl. rewrite app_nil_r. by repeat split.
  - rewrite entries_insert. repeat split.
    intros r Hr. by rewrite lookup_insert_ne.
Qed.

(** X8: for a key that the class stores as it is (any key in a
    [_MutableMultiDict], a key already in upper case in a
    [_CaseInsensitiveMutableMultiDict]), [m.setdefault(k, d)] returns the
    value [m.getone(k)] has afterwards; it leaves the map as it is when the
    key is present and appends [(k, d)] when it is absent; a second call,
    with whatever default, returns the same value and changes nothing. *)
Theorem setdefault_returns_stored_value (self : multidict) (k : string)
    (d d2 : V) (h : heap) :
  is_mutable (cls self) = true ->
  fold_key (cls self) k = k ->
  exists (v : V) (h' : heap),
    setdefault self k d h = (Return v, h')
    /\ getone self k None h' = (Return v, h')
    /\ setdefault self k d2 h' = (Return v, h')
    /\ (contains self k h = (Return true, h) -> h' = h)
    /\ (contains self k h = (Return false, h) ->
        v = d /\ entries h' self = entries h self ++ [(k, d)]).
Proof.
  intros Hmut Hk.
  pose proof (has_key_first_value k (entries h self)) as Hhas.
  rewrite (contains_outcome self k h), Hk.
  rewrite (setdefault_spec self k d h) by assumption.
  destruct (first_value k (entries h self)) as [v|] eqn:Hfirst.
  - exists v, h. split; [reflexivity|]. split; [|split; [|split]].
    + by rewrite getone_outcome, Hk, Hfirst.
    + rewrite setdefault_spec by assumption. by rewrite Hfirst.
    + reflexivity.
    + rewrite Hhas. intros [=].
  - exists d, (<[md_items self := entries h self ++ [(k, d)]]> h).
    assert (Hnew : first_value k (entries h self ++ [(k, d)]) = Some d).
    { by rewrite first_value_app, Hfirst, first_value_same_key. }
    split; [reflexivity|]. split; [|split; [|split]].
    + by rewrite getone_outcome, Hk, entries_insert, Hnew.
    + rewrite setdefault_spec by assumption. by rewrite entries_insert, Hnew.
    + rewrite Hhas. intros [=].
    + intros _. split; [reflexivity|apply entries_insert].
Qed.

(** X9: [m.clear()] never fails and leaves an empty map: its length is
    zero, iterating it yields nothing, no key is in it and [getall] raises
    [KeyError] for every key; no other list is touched. *)
Theorem clear_empties_the_map (self : multidict) (h : heap) :
  is_mutable (cls self) = true ->
  exists h',
    clear self h = (Return tt, h')
    /\ entries h' self = []
    /\ len self h' = (Return 0, h')
    /\ iter self h' = (Return [], h')
    /\ (forall k, contains self k h' = (Return false, h'))
    /\ (forall k, getall self k None h'
                  = (Raise (KeyError (fold_key (cls self) k)), h'))
    /\ forall r, r <> md_items self -> h' !! r = h !! r.
Proof.
  intros Hmut. exists (<[md_items self := []]> h).
  assert (Hempty : entries (<[md_items self := []]> h) self = [])
    by apply entries_insert.
  split; [unfold clear; by rewrite Hmut|]. split; [exact Hempty|].
  split; [|split; [|split; [|split]]].
  - unfold len, bind, load, ret. fold (entries (<[md_items self := []]> h) self).
    by rewrite Hempty.
  - unfold iter, keys, bind. rewrite ViewBase_init_all.
    fold (entries (<[md_items self := []]> h) self). by rewrite Hempty.
  - intros k. by rewrite contains_outcome, Hempty.
  - intros k. by rewrite getall_outcome, Hempty.
  - intros r Hr. by rewrite lookup_insert_ne.
Qed.

(** X10: after a successful [del m[k]] the key is not in the map, [getall]
    raises [KeyError] for it and a second [del m[k]] raises [KeyError]
    without changing anything; the map has lost exactly as many entries as
    [getall] returned values for the key, and [getall] of every other key
    has the outcome it had. *)
Theorem delitem_then_absent (self : multidict) (k : string) (h : heap) :
  is_mutable (cls self) = true ->
  fold_key (cls self) k ∈ (entries h self).*1 ->
  let key := fold_key (cls self) k in
  exists h',
    delitem self k h = (Return tt, h')
    /\ contains self k h' = (Return false, h')
    /\ getall self k None h' = (Raise (KeyError key), h')
    /\ delitem self k h' = (Raise (KeyError key), h')
    /\ length (entries h' self) + length (matching_values key (entries h self))
       = length (entries h self)
    /\ forall k' d, fold_key (cls self) k' <> key ->
                    (getall self k' d h').1 = (getall self k' d h).1.
Proof.
  intros Hmut Hin key. fold key in Hin.
  exists (<[md_items self := without key (entries h self)]> h).
  assert (Hafter : entries (<[md_items self := without key (entries h self)]> h)
                     self = without key (entries h self))
    by apply entries_insert.
  split; [|split; [|split; [|split; [|split]]]].
  - rewrite delitem_spec, Mixin_delitem_spec by assumption. fold key.
    by rewrite bool_decide_eq_true_2.
  - rewrite contains_outcome, Hafter. fold key. by rewrite has_key_without.
  - rewrite getall_outcome, Hafter. fold key.
    by rewrite matching_values_without.
  - rewrite delitem_spec, Mixin_delitem_spec by assumption. fold key.
    rewrite Hafter, bool_decide_eq_false_2; [reflexivity|].
    intros Hstill. apply has_key_spec in Hstill.
    by rewrite has_key_without in Hstill.
  - rewrite Hafter. apply length_without.
  - intros k' d Hne. rewrite !getall_outcome, Hafter.
    by rewrite matching_values_without_ne.
Qed.

(** X11: indexed assignment is idempotent and the last write wins:
    [m[k] = v1; m[k] = v2] leaves the heap that [m[k] = v2] alone leaves.
    Afterwards [m.getone(k)] is [v2], the key is in the map, the map has
    one entry for the key in place of those it had, and [getall] of every
    other key has the outcome it had. *)
Theorem setitem_last_write_wins (self : multidict) (k : string) (v1 v2 : V)
    (h : heap) :
  is_mutable (cls self) = true ->
  let key := fold_key (cls self) k in
  exists h1 h2,
    setitem self k v1 h = (Return tt, h1)
    /\ setitem self k v2 h1 = (Return tt, h2)
    /\ setitem self k v2 h = (Return tt, h2)
    /\ getone self k None h2 = (Return v2, h2)
    /\ contains self k h2 = (Return true, h2)
    /\ length (entries h2 self) + length (matching_values key (entries h self))
       = S (length (entries h self))
    /\ forall k' d, fold_key (cls self) k' <> key ->
                    (getall self k' d h2).1 = (getall self k' d h).1.
Proof.
  intros Hmut key.
  set (l := entries h self).
  exists (<[md_items self := without key l ++ [(key, v1)]]> h),
         (<[md_items self := without key l ++ [(key, v2)]]> h).
  assert (Hafter : entries (<[md_items self := without key l ++ [(key, v2)]]> h)
                     self = without key l ++ [(key, v2)])
    by apply entries_insert.
  assert (Hnone : first_value key (without key l) = None).
  { pose proof (has_key_first_value key (without key l)) as Hhas.
    rewrite has_key_without in Hhas.
    by destruct (first_value key (without key l)). }
  split; [by apply setitem_spec|]. split; [|split; [by apply setitem_spec|]].
  - rewrite setitem_spec by assumption. fold key.
    rewrite entries_insert, insert_insert_eq.
    by rewrite without_app, without_idemp, without_same_key, app_nil_r.
  - split; [|split; [|split]].
    + rewrite getone_outcome, Hafter. fold key.
      by rewrite first_value_app, Hnone, first_value_same_key.
    + rewrite contains_outcome, Hafter. fold key.
      rewrite has_key_first_value, first_value_app, Hnone.
      by rewrite first_value_same_key.
    + rewrite Hafter, length_app. simpl.
      pose proof (length_without key l) as Hlen. fold l. lia.
    + intros k' d Hne. rewrite !getall_outcome, Hafter. fold l.
      rewrite matching_values_app, matching_values_without_ne by assumption.
      rewrite matching_values_other_key by assumption. by rewrite app_nil_r.
Qed.

(** ** Views of first occurrences *)

Lemma first_occurrences_elem (ks : list string) (k : string) :
  k ∈ first_occurrences ks <-> k ∈ ks.
Proof.
  induction ks as [|k0 ks IH]; simpl; [reflexivity|].
  rewrite !elem_of_cons, list_elem_of_filter, IH.
  destruct (decide (k = k0)); tauto.
Qed.

Lemma NoDup_first_occurrences (ks : list string) : NoDup (first_occurrences ks).
Proof.
  induction ks as [|k0 ks IH]; simpl; constructor.
  - rewrite list_elem_of_filter. intros [Hne _]. by apply Hne.
  - by apply NoDup_filter.
Qed.

Lemma length_first_occurrences (ks : list string) :
  length (first_occurrences ks) <= length ks.
Proof.
  induction ks as [|k0 ks IH]; simpl; [lia|].
  pose proof (length_filter (fun k' => k' <> k0) (first_occurrences ks)). lia.
Qed.

Lemma first_seen_loop_items_from (l : list entry) :
  forall (seen : gset string) (ks : list string) (its : list entry),
  exists kept : list entry,
    (foldl first_seen_step (seen, ks, its) l).2 = its ++ kept
    /\ Forall (fun e : entry => (e.1 ∉ seen) /\ first_value e.1 l = Some e.2) kept.
Proof.
  induction l as [|[k v] l IH]; intros seen ks its; simpl.
  - exists []. by rewrite app_nil_r.
  - destruct (decide (k ∈ seen)) as [Hin|Hnin].
    + destruct (IH seen ks its) as (kept & -> & Hkept).
      exists kept. split; [reflexivity|].
      eapply Forall_impl; [exact Hkept|]. intros [k' v'] [Hk' Hv']. simpl in *.
      split; [exact Hk'|]. destruct (decide (k = k')) as [->|_]; [|exact Hv'].
      by destruct Hk'.
    + destruct (IH ({[k]} ∪ seen) (ks ++ [k]) (its ++ [(k, v)]))
        as (kept & -> & Hkept).
      exists ((k, v) :: kept). split; [by rewrite <- app_assoc|].
      constructor.
      * simpl. split; [exact Hnin|]. destruct (decide (k = k)); congruence.
      * eapply Forall_impl; [exact Hkept|]. intros [k' v'] [Hk' Hv']. simpl in *.
        apply not_elem_of_union in Hk' as [Hne Hk'].
        apply not_elem_of_singleton in Hne.
        split; [exact Hk'|]. destruct (decide (k = k')); congruence.
Qed.

(** X12: a view made with [getall=False] holds one entry per distinct key
    of the map, in the order in which the keys first occur: its keys are
    without repetition and are exactly the keys of the map, each of its
    items is a key with the first value stored for it, and its length is
    the number of distinct keys, at most the length of the map. *)
Theorem first_occurrence_view_contents (self : multidict) (h : heap) :
  exists (v : view) (h1 : heap) (its : list entry),
    items self false h = (Return v, h1)
    /\ KeysView_iter v h1 = (Return (first_occurrences (entries h self).*1), h1)
    /\ NoDup (view_keys v)
    /\ (forall k, k ∈ view_keys v <-> k ∈ (entries h self).*1)
    /\ ItemsView_iter v h1 = (Return its, h1)
    /\ its.*1 = view_keys v
    /\ Forall (fun e : entry => first_value e.1 (entries h self) = Some e.2) its
    /\ ViewBase_len v h1 = (Return (length (view_keys v)), h1)
    /\ length (view_keys v) <= length (entries h self).
Proof.
  set (l := entries h self).
  destruct (first_seen_loop_keys l) as [Hkeys Hitems].
  destruct (first_seen_loop_items_from l ∅ [] []) as (kept & Hkept & Hfirst).
  fold (first_seen_loop l) in Hkept. simpl in Hkept.
  exists {| view_keys := (first_seen_loop l).1.2; view_items := fresh (dom h) |},
         (<[fresh (dom h) := (first_seen_loop l).2]> h),
         (first_seen_loop l).2.
  split; [apply ViewBase_init_first|]. simpl. rewrite Hkeys.
  split; [reflexivity|]. split; [apply NoDup_first_occurrences|].
  split; [intros k; apply first_occurrences_elem|].
  split; [by unfold ItemsView_iter, load; simpl; rewrite lookup_insert_eq|].
  split; [exact Hitems|]. split.
  - rewrite Hkept. eapply Forall_impl; [exact Hfirst|]. by intros e [_ He].
  - split.
    + unfold ViewBase_len, bind, load, ret. simpl. rewrite lookup_insert_eq.
      simpl. by rewrite <- Hitems, length_fmap.
    + pose proof (length_first_occurrences l.*1) as Hlen.
      by rewrite length_fmap in Hlen.
Qed.

(** X13: for a key that the class compares as it is, a key is in the keys
    view of a map, made with either value of [getall], exactly when it is
    in the map at that moment. *)
Theorem keys_view_membership (self : multidict) (getall : bool) (k : string)
    (h : heap) :
  fold_key (cls self) k = k ->
  exists (v : view) (h1 : heap) (b : bool),
    keys self getall h = (Return v, h1)
    /\ KeysView_contains v k h1 = (Return b, h1)
    /\ contains self k h = (Return b, h).
Proof.
  intros Hk. rewrite contains_outcome, Hk.
  assert (Hb : forall ks : list string,
             (forall k', k' ∈ ks <-> k' ∈ (entries h self).*1) ->
             bool_decide (k ∈ ks) = has_key k (entries h self)).
  { intros ks Hks. destruct (has_key k (entries h self)) eqn:Hhas.
    - apply bool_decide_eq_true_2, Hks, has_key_spec, Hhas.
    - apply bool_decide_eq_false_2. intros Hin.
      apply Hks, has_key_spec in Hin. congruence. }
  destruct getall.
  - eexists _, _, _. split; [apply ViewBase_init_all|]. split; [|reflexivity].
    unfold KeysView_contains, ret. simpl. f_equal. f_equal. by apply Hb.
  - eexists _, _, _. split; [apply ViewBase_init_first|]. split; [|reflexivity].
    unfold KeysView_contains, ret. simpl. f_equal. f_equal. apply Hb.
    intros k'. destruct (first_seen_loop_keys (entries h self)) as [Hkeys _].
    unfold entries in Hkeys. rewrite Hkeys. apply first_occurrences_elem.
Qed.

(** ** Case-insensitive maps beyond their invariant *)

Lemma matching_values_folded_entries (key : string) (l : list entry) :
  upper key = key ->
  matching_values key (filter (fun e : entry => upper e.1 = e.1) l)
  = matching_values key l.
Proof.
  intros Hkey. induction l as [|[k v] l IH]; [reflexivity|].
  rewrite filter_cons. simpl.
  destruct (decide (upper k = k)) as [Hk|Hk]; simpl.
  - by rewrite IH.
  - rewrite IH. destruct (decide (k = key)) as [->|]; [|reflexivity].
    by destruct Hk.
Qed.

(** X14: the lookups of a case-insensitive map reach only the entries whose
    stored key is in upper case: [getall], [getone] and the containment
    test have, for every key, the outcome they would have if the entries
    with another stored key (which [_from_uppercase_multidict] and
    [setdefault] can leave in the storage) were not there. *)
Theorem case_insensitive_lookups_reach_folded_entries (self : multidict)
    (k : string) (h : heap) :
  is_case_insensitive (cls self) = true ->
  let h_folded :=
    <[md_items self :=
        filter (fun e : entry => upper e.1 = e.1) (entries h self)]> h in
  (forall d, (getall self k d h_folded).1 = (getall self k d h).1)
  /\ (forall d, (getone self k d h_folded).1 = (getone self k d h).1)
  /\ (contains self k h_folded).1 = (contains self k h).1.
Proof.
  intros Hci h_folded.
  assert (Hkey : upper (fold_key (cls self) k) = fold_key (cls self) k).
  { unfold fold_key. rewrite Hci. apply upper_idemp. }
  assert (Hvalues :
            matching_values (fold_key (cls self) k) (entries h_folded self)
            = matching_values (fold_key (cls self) k) (entries h self)).
  { unfold h_folded. rewrite entries_insert.
    by apply matching_values_folded_entries. }
  split; [|split].
  - intros d. by rewrite !getall_outcome, Hvalues.
  - intros d. by rewrite !getone_outcome, !first_value_head, Hvalues.
  - by rewrite !contains_outcome, !has_key_matching_values, Hvalues.
Qed.

Lemma map_fold_entry_folded (c : class) (l : list entry) :
  folded l -> map (fold_entry c) l = l.
Proof.
  unfold folded, fold_entry, fold_key. intros Hl.
  induction Hl as [|[k v] l Hk _ IH]; simpl; [reflexivity|]. simpl in Hk.
  rewrite IH. by destruct (is_case_insensitive c); rewrite ?Hk.
Qed.

(** X15: the copy of a map whose stored keys are all in upper case, as the
    constructor of a case-insensitive class leaves them, holds the entries
    of the map in a list of its own and is equal to the map, in both
    directions, whatever the class of the map. *)
Theorem copy_of_folded_map (self : multidict) (h : heap) :
  folded (entries h self) ->
  is_Some (h !! md_items self) ->
  exists (m : multidict) (h' : heap),
    copy self h = (Return m, h')
    /\ cls m = cls self
    /\ md_items m <> md_items self
    /\ entries h' m = entries h self
    /\ entries h' self = entries h self
    /\ eq m (OtherMultiDict self) h' = (Return (Some true), h')
    /\ eq self (OtherMultiDict m) h' = (Return (Some true), h').
Proof.
  intros Hfolded Hlive. pose proof (fresh_not_live h _ Hlive) as Hne.
  pose proof (MultiDict_init_items (cls self) self h Hlive) as Hrun.
  rewrite map_fold_entry_folded in Hrun by assumption.
  set (m := {| cls := cls self; md_items := fresh (dom h) |}) in *.
  set (h' := <[fresh (dom h) := entries h self]> h) in *.
  assert (Hm : entries h' m = entries h self) by apply entries_insert.
  assert (Hs : entries h' self = entries h self).
  { unfold entries, h'. by rewrite lookup_insert_ne. }
  exists m, h'. split; [exact Hrun|]. split; [reflexivity|].
  split; [exact Hne|]. split; [exact Hm|]. split; [exact Hs|].
  rewrite !eq_multidict_spec, Hm, Hs. by rewrite bool_decide_eq_true_2.
Qed.

(** ** Equality with a mapping from outside the family *)

Lemma eq_loop_ext (g1 g2 : string -> option V) (l : list entry) :
  (forall k, k ∈ l.*1 -> g1 k = g2 k) -> eq_loop g1 l = eq_loop g2 l.
Proof.
  induction l as [|[k v] l IH]; intros Hg; simpl; [reflexivity|].
  rewrite (Hg k) by (simpl; apply elem_of_cons; by left).
  rewrite IH; [reflexivity|].
  intros k' Hk'. apply Hg. simpl. apply elem_of_cons. by right.
Qed.

(** X16: [m == other], for a mapping [other] from outside the family, asks
    [other] about the keys of [m] and about no other: two mappings that
    agree on the keys of [m] compare alike with [m], and a map without
    entries is equal to every such mapping. *)
Theorem eq_mapping_reads_own_keys (self : multidict)
    (g1 g2 : string -> option V) (h : heap) :
  (forall k, k ∈ (entries h self).*1 -> g1 k = g2 k) ->
  eq self (OtherMapping g1) h = eq self (OtherMapping g2) h
  /\ (entries h self = [] ->
      eq self (OtherMapping g1) h = (Return (Some true), h)).
Proof.
  intros Hagree.
  assert (Heq : forall g, eq self (OtherMapping g) h
                          = (Return (Some (eq_loop g (entries h self))), h))
    by reflexivity.
  split.
  - by rewrite !Heq, (eq_loop_ext g1 g2).
  - intros Hempty. by rewrite Heq, Hempty.
Qed.

(** ** Maps over separate lists *)

(** X17: whatever sequence of mutations is performed on a map, whether the
    calls return or raise, a map over another list keeps its entries, its
    length, what iterating it yields and the outcome of every lookup. *)
Theorem mutations_leave_other_maps (self other : multidict)
    (ops : list operation) (h : heap) :
  md_items other <> md_items self ->
  entries (perform_all self ops h) other = entries h other
  /\ (len other (perform_all self ops h)).1 = (len other h).1
  /\ (iter other (perform_all self ops h)).1 = (iter other h).1
  /\ (forall k d, (getall other k d (perform_all self ops h)).1
                  = (getall other k d h).1)
  /\ (forall k d, (getone other k d (perform_all self ops h)).1
                  = (getone other k d h).1)
  /\ forall k, (contains other k (perform_all self ops h)).1
               = (contains other k h).1.
Proof.
  intros Hother.
  assert (Hsame : entries (perform_all self ops h) other = entries h other).
  { unfold entries. by rewrite perform_all_frame. }
  split; [exact Hsame|]. split; [|split; [|split; [|split]]].
  - unfold len, bind, load, ret. simpl.
    fold (entries (perform_all self ops h) other) (entries h other).
    by rewrite Hsame.
  - unfold iter, keys, bind. rewrite !ViewBase_init_all. simpl.
    fold (entries (perform_all self ops h) other) (entries h other).
    by rewrite Hsame.
  - intros k d. by rewrite !getall_outcome, Hsame.
  - intros k d. by rewrite !getone_outcome, Hsame.
  - intros k. by rewrite !contains_outcome, Hsame.
Qed.

(** ** Views of all entries and the lookups *)

(** X18: at the moment it is made, the items view of all entries agrees
    with [getall]: for a key that the class compares as it is, the pair
    [(k, x)] is in [m.items()] exactly when [x] is in [m.getall(k, [])],
    and a value is in [m.values()] exactly when some key has it in its
    [getall] list. *)
Theorem items_view_agrees_with_getall (self : multidict) (k : string) (x : V)
    (h : heap) :
  fold_key (cls self) k = k ->
  exists (vi vv : view) (b c : bool) (xs : list V),
    items self true h = (Return vi, h)
    /\ values self true h = (Return vv, h)
    /\ ItemsView_contains vi (k, x) h = (Return b, h)
    /\ getall self k (Some []) h = (Return xs, h)
    /\ (b = true <-> x ∈ xs)
    /\ ValuesView_contains vv x h = (Return c, h)
    /\ (c = true <-> exists k', x ∈ matching_values k' (entries h self)).
Proof.
  intros Hk.
  exists {| view_keys := (entries h self).*1; view_items := md_items self |},
         {| view_keys := (entries h self).*1; view_items := md_items self |},
         (bool_decide ((k, x) ∈ entries h self)),
         (bool_decide (x ∈ (entries h self).*2)),
         (matching_values k (entries h self)).
  split; [reflexivity|]. split; [reflexivity|]. split; [reflexivity|].
  split; [|split; [|split; [reflexivity|]]].
  - rewrite getall_outcome, Hk.
    by destruct (matching_values k (entries h self)).
  - by rewrite bool_decide_eq_true, elem_of_matching_values.
  - rewrite bool_decide_eq_true, list_elem_of_fmap. split.
    + intros ([k' x'] & -> & Hin). exists k'. simpl.
      by apply elem_of_matching_values.
    + intros [k' Hin]. exists (k', x). split; [reflexivity|].
      by apply elem_of_matching_values.
Qed.

(** ** [extend] with an argument read through a list of the heap *)

Lemma extend_live_loop_separate (self : multidict) (src : loc) :
  is_mutable (cls self) = true ->
  src <> md_items self ->
  forall (fuel i : nat) (h : heap),
    i <= length (default [] (h !! src)) ->
    length (default [] (h !! src)) - i < fuel ->
    extend_live_loop fuel self src i h
    = Some (Return tt,
            if decide (drop i (default [] (h !! src)) = []) then h
            else <[md_items self :=
                     entries h self
                     ++ map (fold_entry (cls self))
                          (drop i (default [] (h !! src)))]> h).
Proof.
  intros Hmut Hsrc. induction fuel as [|fuel IH]; intros i h Hi Hfuel; [lia|].
  cbn [extend_live_loop]. set (l := default [] (h !! src)) in *.
  destruct (l !! i) as [[k v]|] eqn:Hlookup.
  - rewrite add_spec by assumption.
    pose proof (lookup_lt_Some _ _ _ Hlookup) as Hlt.
    assert (Hsame : default [] (<[md_items self :=
                       entries h self ++ [(fold_key (cls self) k, v)]]> h
                       !! src) = l).
    { by rewrite lookup_insert_ne. }
    rewrite IH; rewrite Hsame; try lia.
    rewrite (drop_S l (k, v) i Hlookup).
    destruct (decide ((k, v) :: drop (S i) l = [])) as [Hbad|_];
      [discriminate Hbad|].
    destruct (decide (drop (S i) l = [])) as [Hnil|Hcons].
    + by rewrite Hnil.
    + rewrite entries_insert, insert_insert_eq. simpl.
      by rewrite <- app_assoc.
  - apply lookup_ge_None in Hlookup.
    rewrite drop_ge by assumption. by rewrite decide_True.
Qed.

Lemma extend_live_loop_shared (self : multidict) :
  is_mutable (cls self) = true ->
  forall (fuel i : nat) (h : heap),
    i < length (entries h self) ->
    extend_live_loop fuel self (md_items self) i h = None.
Proof.
  intros Hmut. induction fuel as [|fuel IH]; intros i h Hi; [reflexivity|].
  cbn [extend_live_loop]. fold (entries h self).
  destruct (lookup_lt_is_Some_2 (entries h self) i Hi) as [[k v] Hlookup].
  rewrite Hlookup, add_spec by assumption. apply IH.
  rewrite entries_insert, length_app. simpl. lia.
Qed.

(** X19: [m.extend(other)], for a map [other] of the family over another
    list, returns once the loop has had more turns than [other] has
    entries; it has then added the entries of [other] and the keyword
    pairs, as [extend] with the fixed list of those entries does, and
    [other] is as it was.  [m.extend(m)] and [m.extend(m.items())] on a map
    that is not empty do not return, however many turns the loop is given:
    every turn adds an entry to the list the loop is reading.  On an empty
    map they add the keyword pairs only. *)
Theorem extend_with_a_map (self other : multidict) (kwargs : list entry)
    (h : heap) :
  is_mutable (cls self) = true ->
  (md_items other <> md_items self ->
   exists h',
     extend self [ExtMapping (entries h other)] kwargs h = (Return tt, h')
     /\ (forall fuel, length (entries h other) < fuel ->
           extend_multidict fuel self other kwargs h = Some (Return tt, h'))
     /\ entries h' self
        = entries h self
          ++ map (fold_entry (cls self)) (entries h other ++ kwargs)
     /\ entries h' other = entries h other)
  /\ (entries h self <> [] ->
      forall fuel,
        extend_multidict fuel self self kwargs h = None
        /\ forall v, items self true h = (Return v, h) ->
                     extend_items_view fuel self v kwargs h = None)
  /\ (entries h self = [] ->
      forall fuel, 0 < fuel ->
        extend_multidict fuel self self kwargs h
        = Some (extend self [] kwargs h)).
Proof.
  intros Hmut. split; [|split].
  - intros Hother.
    set (l := entries h other).
    set (h1 := if decide (l = []) then h
               else <[md_items self :=
                        entries h self ++ map (fold_entry (cls self)) l]> h).
    assert (Hvalue : extend self [ExtMapping l] kwargs h
                     = extend_loop self (as_items kwargs ++ []) h1).
    { unfold extend. rewrite Hmut. simpl.
      by rewrite extend_loop_pairs, app_nil_r. }
    assert (Hlive : forall fuel, length l < fuel ->
                extend_multidict fuel self other kwargs h
                = Some (extend_loop self (as_items kwargs ++ []) h1)).
    { intros fuel Hfuel. unfold extend_multidict, extend_from_list.
      rewrite Hmut. simpl.
      rewrite (extend_live_loop_separate self (md_items other) Hmut Hother);
        fold (entries h other); fold l; try lia.
      rewrite drop_0. fold h1. by rewrite app_nil_r. }
    rewrite extend_loop_pairs in Hvalue, Hlive by assumption.
    simpl in Hvalue, Hlive. unfold ret in Hvalue, Hlive.
    eexists. split; [exact Hvalue|]. split; [exact Hlive|].
    assert (Hh1 : entries h1 self
                  = entries h self ++ map (fold_entry (cls self)) l
                  /\ entries h1 other = l).
    { unfold h1. destruct (decide (l = [])) as [Hnil|_].
      - rewrite Hnil. simpl. by rewrite app_nil_r.
      - rewrite entries_insert. split; [reflexivity|].
        unfold entries. by rewrite lookup_insert_ne. }
    destruct Hh1 as [Hself Hoth].
    destruct (decide (kwargs = [])) as [->|_].
    + by rewrite Hself, Hoth, app_nil_r.
    + rewrite entries_insert, Hself, map_app, <- app_assoc.
      split; [reflexivity|]. unfold entries.
      by rewrite lookup_insert_ne.
  - intros Hfull fuel.
    assert (Hloop : extend_live_loop fuel self (md_items self) 0 h = None).
    { apply extend_live_loop_shared; [assumption|].
      destruct (entries h self); [congruence|simpl; lia]. }
    split.
    + unfold extend_multidict, extend_from_list. by rewrite Hmut, Hloop.
    + intros v Hv. unfold items in Hv. rewrite ViewBase_init_all in Hv.
      injection Hv as <-.
      unfold extend_items_view, extend_from_list. simpl.
      by rewrite Hmut, Hloop.
  - intros Hempty [|fuel] Hfuel; [lia|].
    unfold extend_multidict, extend_from_list. rewrite Hmut. simpl.
    fold (entries h self). rewrite Hempty. simpl.
    unfold extend. by rewrite Hmut.
Qed.

End properties.


(** * The code on concrete maps *)

Open Scope string_scope.

(** C2, as stated, fails: iterating over
    [MultiDict([("a", 1), ("b", 2), ("a", 3)])] yields [a, b, a], three
    keys for a map of length three, not the two distinct keys. *)
Lemma iter_repeats_keys :
  exists m h,
    repeated_key_map = (Return m, h)
    /\ iter m h = (Return ["a"; "b"; "a"], h)
    /\ len m h = (Return 3, h)
    /\ ~ iterates_distinct_keys m h.
Proof.
  exists {| cls := _MultiDict; md_items := 0 |},
         {[ 0 := [("a", 1); ("b", 2); ("a", 3)] ]}.
  split; [vm_compute; reflexivity|]. split; [vm_compute; reflexivity|].
  split; [vm_compute; reflexivity|].
  intros (n & Hiter & _). vm_compute in Hiter. discriminate Hiter.
Qed.

(** C3, as stated, fails: [{"a": 1}] gives the first value of the only key
    of [MultiDict([("a", 1), ("a", 2)])], and the map is not equal to it. *)
Lemma eq_reads_later_values :
  exists m h,
    two_values_map = (Return m, h)
    /\ (forall k, k ∈ (entries h m).*1 ->
          dict_a_1_get k = first_value k (entries h m))
    /\ eq m (OtherMapping dict_a_1_get) h = (Return (Some false), h)
    /\ ~ equal_by_first_values m dict_a_1_get h.
Proof.
  set (m := {| cls := _MultiDict; md_items := 0 |}).
  set (h := {[ 0 := [("a", 1); ("a", 2)] ]} : gmap nat (list (string * nat))).
  exists m, h. split; [vm_compute; reflexivity|].
  assert (Hfirst : forall k : string,
             k ∈ (entries h m).*1 ->
             dict_a_1_get k = first_value k (entries h m)).
  { intros k Hk. change ((entries h m).*1) with ["a"; "a"] in Hk.
    assert (k = "a") as ->.
    { repeat (apply elem_of_cons in Hk as [Hk|Hk]; [assumption|]).
      by apply elem_of_nil in Hk. }
    reflexivity. }
  split; [exact Hfirst|]. split; [vm_compute; reflexivity|].
  intros [_ Hclaim]. specialize (Hclaim Hfirst). vm_compute in Hclaim.
  discriminate Hclaim.
Qed.


Lemma mutable_map_built :
  MultiDict_init _MutableMultiDict
    [ArgSequence [Pair "a" 1; Pair "b" 2; Pair "a" 3]] [] ∅
  = (Return mutable_map, mutable_map_heap).
Proof. vm_compute. reflexivity. Qed.

Lemma header_map_built :
  MultiDict_init _CaseInsensitiveMultiDict [ArgMapping [("Content-Type", 7)]] [] ∅
  = (Return header_map, header_map_heap).
Proof. vm_compute. reflexivity. Qed.

(** C1, as stated, fails on [m = MutableMultiDict([("a", 1)])]: the views
    taken with [getall=True] before [m.add("b", 2)] are not what they were
    after it.  The items view and the values view have grown by the new
    entry; the keys view reports the new length. *)
Lemma views_follow_later_add :
  exists m h h' vk vi vv,
    one_entry_map = (Return m, h)
    /\ keys m true h = (Return vk, h)
    /\ items m true h = (Return vi, h)
    /\ values m true h = (Return vv, h)
    /\ add m "b" 2 h = (Return tt, h')
    /\ keys_observation vk "b" h = (Return 1, Return ["a"], Return false)
    /\ keys_observation vk "b" h' = (Return 2, Return ["a"], Return false)
    /\ items_observation vi ("b", 2) h
       = (Return 1, Return [("a", 1)], Return false)
    /\ items_observation vi ("b", 2) h'
       = (Return 2, Return [("a", 1); ("b", 2)], Return true)
    /\ values_observation vv 2 h = (Return 1, Return [1], Return false)
    /\ values_observation vv 2 h' = (Return 2, Return [1; 2], Return true)
    /\ keys_observation vk "b" h' <> keys_observation vk "b" h
    /\ items_observation vi ("b", 2) h' <> items_observation vi ("b", 2) h
    /\ values_observation vv 2 h' <> values_observation vv 2 h.
Proof.
  exists {| cls := _MutableMultiDict; md_items := 0 |},
         {[ 0 := [("a", 1)] ]}, {[ 0 := [("a", 1); ("b", 2)] ]},
         {| view_keys := ["a"]; view_items := 0 |},
         {| view_keys := ["a"]; view_items := 0 |},
         {| view_keys := ["a"]; view_items := 0 |}.
  repeat split; try (vm_compute; reflexivity);
    intros Heq; vm_compute in Heq; discriminate Heq.
Qed.

(** The views of [MutableMultiDict([("a", 1), ("b", 2), ("a", 3)])] and a
    later [m["a"] = 9]: the items view of first occurrences keeps its two
    pairs, the items view of all entries shows the new storage. *)
Lemma view_is_snapshot_or_shares_list_witness :
  is_Some (mutable_map_heap !! md_items mutable_map)
  /\ (exists v h1,
        items mutable_map false mutable_map_heap = (Return v, h1)
        /\ forall probe,
             items_observation v probe
               (perform_all mutable_map [OpSetitem "a" 9] h1)
             = items_observation v probe h1)
  /\ (exists v,
        items mutable_map true mutable_map_heap = (Return v, mutable_map_heap)
        /\ forall probe,
             items_observation v probe
               (perform_all mutable_map [OpSetitem "a" 9] mutable_map_heap)
             = (Return (length (entries (perform_all mutable_map
                                           [OpSetitem "a" 9] mutable_map_heap)
                                  mutable_map)),
                Return (entries (perform_all mutable_map [OpSetitem "a" 9]
                                   mutable_map_heap) mutable_map),
                Return (bool_decide
                          (probe ∈ entries (perform_all mutable_map
                                              [OpSetitem "a" 9]
                                              mutable_map_heap)
                                     mutable_map)))).
Proof.
  assert (Hlive : is_Some (mutable_map_heap !! md_items mutable_map))
    by (eexists; reflexivity).
  split; [exact Hlive|].
  destruct (view_is_snapshot_or_shares_list mutable_map mutable_map_heap
              [OpSetitem "a" 9] Hlive) as (_ & Hfirst & _ & Hall & _).
  split; [exact Hfirst|exact Hall].
Defined.

(** C4 on [m = CaseInsensitiveMutableMultiDict([("Key", 1)])]:
    [m.setdefault("key", 2)] compares the raw key with the stored [KEY],
    finds nothing, and stores [key] as it is. *)
Theorem setdefault_stores_unfolded_key :
  exists m h h',
    folded_key_map = (Return m, h)
    /\ entries h m = [("KEY", 1)]
    /\ contains m "key" h = (Return true, h)
    /\ setdefault m "key" 2 h = (Return 2, h')
    /\ entries h' m = [("KEY", 1); ("key", 2)]
    /\ ~ folded (entries h' m).
Proof.
  exists {| cls := _CaseInsensitiveMutableMultiDict; md_items := 0 |},
         {[ 0 := [("KEY", 1)] ]}, {[ 0 := [("KEY", 1); ("key", 2)] ]}.
  repeat split; try (vm_compute; reflexivity).
  intros Hfolded. change (folded [("KEY", 1); ("key", 2)]) in Hfolded.
  unfold folded in Hfolded. rewrite !Forall_cons in Hfolded.
  destruct Hfolded as (_ & Hkey & _). vm_compute in Hkey. discriminate Hkey.
Qed.

(** C5 on [m = MutableMultiDict([("a", 1)])]:
    [m.extend([("b", 2), ("c",)])] raises when it reaches [("c",)], and
    [("b", 2)] is in the storage by then. *)
Theorem extend_adds_before_it_fails :
  exists m h h',
    one_entry_map = (Return m, h)
    /\ entries h m = [("a", 1)]
    /\ extend m [ExtSequence [Pair "b" 2; Short (Some "c")]] [] h
       = (Raise ValueError, h')
    /\ entries h' m = [("a", 1); ("b", 2)].
Proof.
  exists {| cls := _MutableMultiDict; md_items := 0 |},
         {[ 0 := [("a", 1)] ]}, {[ 0 := [("a", 1); ("b", 2)] ]}.
  repeat split; vm_compute; reflexivity.
Qed.

(** [m["a"] = 9] on [MutableMultiDict([("a", 1), ("b", 2), ("a", 3)])] *)
Lemma setitem_replaces_all_with_one_witness :
  is_mutable (cls mutable_map) = true
  /\ (cls mutable_map = _MutableMultiDict
      -> fold_key (cls mutable_map) "a" = "a")
  /\ exists h',
       setitem mutable_map "a" 9 mutable_map_heap = (Return tt, h')
       /\ entries h' mutable_map
          = (without "a" (entries mutable_map_heap mutable_map)
             ++ [("a", 9)])%list
       /\ without "a" (entries h' mutable_map)
          = without "a" (entries mutable_map_heap mutable_map)
       /\ getall mutable_map "a" None h' = (Return [9], h')
       /\ forall r, r <> md_items mutable_map -> h' !! r = mutable_map_heap !! r.
Proof.
  split; [reflexivity|].
  apply (setitem_replaces_all_with_one mutable_map "a" 9 mutable_map_heap).
  reflexivity.
Defined.

(** [del m["a"]] and [del m["z"]] on the same map *)
Lemma delitem_removes_all_or_fails_witness :
  is_mutable (cls mutable_map) = true
  /\ ("b" ∈ (entries mutable_map_heap mutable_map).*1 ->
      exists h',
        delitem mutable_map "b" mutable_map_heap = (Return tt, h')
        /\ entries h' mutable_map
           = without "b" (entries mutable_map_heap mutable_map)
        /\ forall r, r <> md_items mutable_map -> h' !! r = mutable_map_heap !! r)
  /\ ("b" ∉ (entries mutable_map_heap mutable_map).*1 ->
      delitem mutable_map "b" mutable_map_heap
      = (Raise (KeyError "b"), mutable_map_heap)).
Proof.
  split; [reflexivity|].
  apply (delitem_removes_all_or_fails mutable_map "b" mutable_map_heap).
  reflexivity.
Defined.

(** C8, as stated, fails on [m = CaseInsensitiveMultiDict([(K, 1)])] with
    [K] the kelvin sign U+212A: [K.upper()] is [K], so the key is stored as
    it is and [m.getall(K)] is [[1]]; [K.lower()] is the letter [k], whose
    upper-case form is the letter [K], and [m.getall(K.lower())] raises
    [KeyError]. *)
Lemma getall_of_lowered_kelvin_sign :
  exists m h,
    MultiDict_init _CaseInsensitiveMultiDict
      [ArgSequence [Pair kelvin_sign 1]] [] ∅ = (Return m, h)
    /\ entries h m = [(kelvin_sign, 1)]
    /\ lower kelvin_sign = "k"
    /\ getall m kelvin_sign None h = (Return [1], h)
    /\ getall m (lower kelvin_sign) None h = (Raise (KeyError "K"), h)
    /\ ~ getall_same_in_every_case m kelvin_sign h.
Proof.
  exists {| cls := _CaseInsensitiveMultiDict; md_items := 0 |},
         {[ 0 := [(kelvin_sign, 1)] ]}.
  repeat split; try (vm_compute; reflexivity).
  intros [_ Hlower]. vm_compute in Hlower. discriminate Hlower.
Qed.

(** [getall] on [CaseInsensitiveMultiDict({"Content-Type": 7})] *)
Lemma getall_depends_on_upper_key_witness :
  is_case_insensitive (cls header_map) = true
  /\ upper "CONTENT-type" = upper "Content-Type"
  /\ isascii "Content-Type" = true
  /\ getall header_map (upper "Content-Type") None header_map_heap
     = getall header_map "Content-Type" None header_map_heap
  /\ getall header_map "CONTENT-type" None header_map_heap
     = getall header_map "Content-Type" None header_map_heap
  /\ getall header_map (lower "Content-Type") None header_map_heap
     = getall header_map "Content-Type" None header_map_heap.
Proof.
  split; [reflexivity|]. split; [reflexivity|]. split; [reflexivity|].
  destruct (getall_depends_on_upper_key header_map "Content-Type"
              "CONTENT-type" None header_map_heap eq_refl)
    as (Hupper & Hsame & Hlower).
  split; [exact Hupper|]. split; [exact (Hsame eq_refl)|exact (Hlower eq_refl)].
Defined.

(** [m.copy()] on [MutableMultiDict([("a", 1), ("b", 2), ("a", 3)])] *)
Lemma copy_is_equal_and_separate_witness :
  is_case_insensitive (cls mutable_map) = false
  /\ is_Some (mutable_map_heap !! md_items mutable_map)
  /\ exists (m : multidict) (h' : gmap nat (list (string * nat))),
       (v <- items mutable_map true ;;
        MultiDict_init (cls mutable_map) [ArgItemsView v] []) mutable_map_heap
       = (Return m, h')
       /\ copy mutable_map mutable_map_heap = (Return m, h')
       /\ cls m = cls mutable_map
       /\ md_items m <> md_items mutable_map
       /\ entries h' m = entries mutable_map_heap mutable_map
       /\ entries h' mutable_map = entries mutable_map_heap mutable_map
       /\ eq m (OtherMultiDict mutable_map) h' = (Return (Some true), h')
       /\ eq mutable_map (OtherMultiDict m) h' = (Return (Some true), h').
Proof.
  split; [reflexivity|]. split; [eexists; reflexivity|].
  apply (copy_is_equal_and_separate mutable_map mutable_map_heap).
  - reflexivity.
  - eexists; reflexivity.
Defined.

Close Scope string_scope.


(** * Further properties on concrete maps *)

Open Scope string_scope.

Lemma constructor_from_multidict_witness :
  is_Some (mutable_map_heap !! md_items mutable_map)
  /\ exists m h',
       MultiDict_init _CaseInsensitiveMultiDict [ArgMultiDict mutable_map]
         [("c", 4)] mutable_map_heap = (Return m, h')
       /\ entries h' m = [("A", 1); ("B", 2); ("A", 3); ("C", 4)]
       /\ entries h' mutable_map = [("a", 1); ("b", 2); ("a", 3)].
Proof.
  assert (Hlive : is_Some (mutable_map_heap !! md_items mutable_map))
    by (eexists; reflexivity).
  split; [exact Hlive|].
  destruct (constructor_from_multidict _CaseInsensitiveMultiDict mutable_map
              [("c", 4)] mutable_map_heap Hlive)
    as (m & h' & Hinit & _ & _ & Hnew & Hold & _).
  exists m, h'. split; [exact Hinit|]. split; [exact Hnew|exact Hold].
Defined.

Lemma constructed_pairs_are_found_witness :
  ("Accept", 2) ∈ ([("Host", 1); ("Accept", 2)] ++ [("accept", 3)])%list
  /\ exists m h' vs,
       MultiDict_init _CaseInsensitiveMultiDict
         [ArgMapping [("Host", 1); ("Accept", 2)]] [("accept", 3)] ∅
       = (Return m, h')
       /\ len m h' = (Return 3, h')
       /\ contains m "Accept" h' = (Return true, h')
       /\ getall m "Accept" None h' = (Return vs, h')
       /\ 2 ∈ vs.
Proof.
  assert (Hin : ("Accept", 2)
                ∈ ([("Host", 1); ("Accept", 2)] ++ [("accept", 3)])%list).
  { simpl. apply elem_of_cons. right. apply elem_of_cons. by left. }
  split; [exact Hin|].
  exact (constructed_pairs_are_found _CaseInsensitiveMultiDict
           [("Host", 1); ("Accept", 2)] [("accept", 3)] ∅ "Accept" 2 Hin).
Defined.

Lemma single_lookups_depend_on_upper_key_witness :
  is_case_insensitive (cls header_map) = true
  /\ upper "CONTENT-type" = upper "Content-Type"
  /\ isascii "Content-Type" = true
  /\ contains header_map (upper "Content-Type") header_map_heap
     = contains header_map "Content-Type" header_map_heap
  /\ getone header_map "CONTENT-type" None header_map_heap
     = getone header_map "Content-Type" None header_map_heap
  /\ getitem header_map (lower "Content-Type") header_map_heap
     = getitem header_map "Content-Type" header_map_heap.
Proof.
  split; [reflexivity|]. split; [reflexivity|]. split; [reflexivity|].
  destruct (single_lookups_depend_on_upper_key header_map "Content-Type"
              "CONTENT-type" None header_map_heap eq_refl)
    as ((_ & _ & _ & Hin) & Hsame & Hlower).
  split; [exact Hin|].
  split; [exact (proj1 (Hsame eq_refl))|exact (proj1 (proj2 (Hlower eq_refl)))].
Defined.

Lemma add_appends_one_value_witness :
  is_mutable (cls mutable_map) = true
  /\ exists h',
       add mutable_map "a" 4 mutable_map_heap = (Return tt, h')
       /\ len mutable_map h' = (Return 4, h')
       /\ getall mutable_map "a" None h' = (Return [1; 3; 4], h').
Proof.
  split; [reflexivity|].
  destruct (add_appends_one_value mutable_map "a" 4 mutable_map_heap eq_refl)
    as (h' & Hadd & Hlen & Hall & _).
  exists h'. split; [exact Hadd|]. split; [exact Hlen|exact (Hall None)].
Defined.

Lemma extend_appends_all_pairs_witness :
  is_mutable (cls mutable_map) = true
  /\ exists h',
       extend mutable_map [ExtMapping [("c", 4)]] [("d", 5)] mutable_map_heap
       = (Return tt, h')
       /\ entries h' mutable_map
          = [("a", 1); ("b", 2); ("a", 3); ("c", 4); ("d", 5)].
Proof.
  split; [reflexivity|].
  destruct (extend_appends_all_pairs mutable_map [("c", 4)] [("d", 5)]
              mutable_map_heap eq_refl)
    as (h' & Hmapping & _ & Hentries & _).
  exists h'. split; [exact Hmapping|exact Hentries].
Defined.

Lemma setdefault_returns_stored_value_witness :
  is_mutable (cls mutable_map) = true
  /\ fold_key (cls mutable_map) "a" = "a"
  /\ exists v h',
       setdefault mutable_map "a" 9 mutable_map_heap = (Return v, h')
       /\ getone mutable_map "a" None h' = (Return v, h')
       /\ setdefault mutable_map "a" 8 h' = (Return v, h').
Proof.
  split; [reflexivity|]. split; [reflexivity|].
  destruct (setdefault_returns_stored_value mutable_map "a" 9 8
              mutable_map_heap eq_refl eq_refl)
    as (v & h' & Hfirst & Hone & Hsecond & _).
  exists v, h'. split; [exact Hfirst|]. split; [exact Hone|exact Hsecond].
Defined.

Lemma clear_empties_the_map_witness :
  is_mutable (cls mutable_map) = true
  /\ exists h',
       clear mutable_map mutable_map_heap = (Return tt, h')
       /\ len mutable_map h' = (Return 0, h')
       /\ contains mutable_map "a" h' = (Return false, h').
Proof.
  split; [reflexivity|].
  destruct (clear_empties_the_map mutable_map mutable_map_heap eq_refl)
    as (h' & Hclear & _ & Hlen & _ & Hin & _).
  exists h'. split; [exact Hclear|]. split; [exact Hlen|exact (Hin "a")].
Defined.

Lemma delitem_then_absent_witness :
  is_mutable (cls mutable_map) = true
  /\ fold_key (cls mutable_map) "a" ∈ (entries mutable_map_heap mutable_map).*1
  /\ exists h',
       delitem mutable_map "a" mutable_map_heap = (Return tt, h')
       /\ contains mutable_map "a" h' = (Return false, h')
       /\ delitem mutable_map "a" h' = (Raise (KeyError "a"), h')
       /\ length (entries h' mutable_map) + 2 = 3.
Proof.
  assert (Hin : fold_key (cls mutable_map) "a"
                ∈ (entries mutable_map_heap mutable_map).*1).
  { change ("a" ∈ ["a"; "b"; "a"]). apply elem_of_cons. by left. }
  split; [reflexivity|]. split; [exact Hin|].
  destruct (delitem_then_absent mutable_map "a" mutable_map_heap eq_refl Hin)
    as (h' & Hdel & Hgone & _ & Hagain & Hlen & _).
  exists h'. split; [exact Hdel|]. split; [exact Hgone|].
  split; [exact Hagain|exact Hlen].
Defined.

Lemma setitem_last_write_wins_witness :
  is_mutable (cls mutable_map) = true
  /\ exists h1 h2,
       setitem mutable_map "a" 8 mutable_map_heap = (Return tt, h1)
       /\ setitem mutable_map "a" 9 h1 = (Return tt, h2)
       /\ setitem mutable_map "a" 9 mutable_map_heap = (Return tt, h2)
       /\ getone mutable_map "a" None h2 = (Return 9, h2).
Proof.
  split; [reflexivity|].
  destruct (setitem_last_write_wins mutable_map "a" 8 9 mutable_map_heap
              eq_refl)
    as (h1 & h2 & Hfirst & Hsecond & Honce & Hone & _).
  exists h1, h2. split; [exact Hfirst|]. split; [exact Hsecond|].
  split; [exact Honce|exact Hone].
Defined.

Lemma keys_view_membership_witness :
  fold_key (cls mutable_map) "b" = "b"
  /\ exists v h1 b,
       keys mutable_map false mutable_map_heap = (Return v, h1)
       /\ KeysView_contains v "b" h1 = (Return b, h1)
       /\ contains mutable_map "b" mutable_map_heap
          = (Return b, mutable_map_heap).
Proof.
  split; [reflexivity|].
  exact (keys_view_membership mutable_map false "b" mutable_map_heap eq_refl).
Defined.

Lemma case_insensitive_lookups_reach_folded_entries_witness :
  is_case_insensitive (cls mixed_case_map) = true
  /\ (getall mixed_case_map "key" None
        (<[md_items mixed_case_map := [("KEY", 1)]]> mixed_case_heap)).1
     = (getall mixed_case_map "key" None mixed_case_heap).1.
Proof.
  split; [reflexivity|].
  destruct (case_insensitive_lookups_reach_folded_entries mixed_case_map
              "key" mixed_case_heap eq_refl) as (Hall & _).
  exact (Hall None).
Defined.

Lemma copy_of_folded_map_witness :
  folded (entries header_map_heap header_map)
  /\ is_Some (header_map_heap !! md_items header_map)
  /\ exists m h',
       copy header_map header_map_heap = (Return m, h')
       /\ md_items m <> md_items header_map
       /\ eq m (OtherMultiDict header_map) h' = (Return (Some true), h').
Proof.
  assert (Hfolded : folded (entries header_map_heap header_map)).
  { change (folded [("CONTENT-TYPE", 7)]). repeat constructor. }
  assert (Hlive : is_Some (header_map_heap !! md_items header_map))
    by (eexists; reflexivity).
  split; [exact Hfolded|]. split; [exact Hlive|].
  destruct (copy_of_folded_map header_map header_map_heap Hfolded Hlive)
    as (m & h' & Hcopy & _ & Hne & _ & _ & Heq & _).
  exists m, h'. split; [exact Hcopy|]. split; [exact Hne|exact Heq].
Defined.

Lemma eq_mapping_reads_own_keys_witness :
  (forall k, k ∈ (entries mutable_map_heap mutable_map).*1 ->
             dict_a_1_get k = dict_a_1_z_9_get k)
  /\ eq mutable_map (OtherMapping dict_a_1_get) mutable_map_heap
     = eq mutable_map (OtherMapping dict_a_1_z_9_get) mutable_map_heap.
Proof.
  assert (Hagree : forall k, k ∈ (entries mutable_map_heap mutable_map).*1 ->
                             dict_a_1_get k = dict_a_1_z_9_get k).
  { intros k Hk. change (k ∈ ["a"; "b"; "a"]) in Hk.
    repeat (apply elem_of_cons in Hk as [->|Hk]; [reflexivity|]).
    by apply elem_of_nil in Hk. }
  split; [exact Hagree|].
  exact (proj1 (eq_mapping_reads_own_keys mutable_map dict_a_1_get
                  dict_a_1_z_9_get mutable_map_heap Hagree)).
Defined.

Lemma mutations_leave_other_maps_witness :
  md_items second_map <> md_items mutable_map
  /\ entries (perform_all mutable_map [OpClear; OpAdd "x" 1] two_maps_heap)
       second_map
     = [("x", 7)].
Proof.
  assert (Hne : md_items second_map <> md_items mutable_map) by discriminate.
  split; [exact Hne|].
  exact (proj1 (mutations_leave_other_maps mutable_map second_map
                  [OpClear; OpAdd "x" 1] two_maps_heap Hne)).
Defined.

Lemma items_view_agrees_with_getall_witness :
  fold_key (cls mutable_map) "a" = "a"
  /\ exists vi vv b c xs,
       items mutable_map true mutable_map_heap = (Return vi, mutable_map_heap)
       /\ values mutable_map true mutable_map_heap
          = (Return vv, mutable_map_heap)
       /\ ItemsView_contains vi ("a", 3) mutable_map_heap
          = (Return b, mutable_map_heap)
       /\ getall mutable_map "a" (Some []) mutable_map_heap
          = (Return xs, mutable_map_heap)
       /\ (b = true <-> 3 ∈ xs)
       /\ ValuesView_contains vv 3 mutable_map_heap
          = (Return c, mutable_map_heap)
       /\ (c = true <->
           exists k', 3 ∈ matching_values k'
                            (entries mutable_map_heap mutable_map)).
Proof.
  split; [reflexivity|].
  exact (items_view_agrees_with_getall mutable_map "a" 3 mutable_map_heap
           eq_refl).
Defined.

Close Scope string_scope.


Open Scope string_scope.

(** [m.extend(other)] for the two maps of [two_maps_heap], and
    [m.extend(m)] *)
Lemma extend_with_a_map_witness :
  is_mutable (cls mutable_map) = true
  /\ md_items second_map <> md_items mutable_map
  /\ entries two_maps_heap mutable_map <> []
  /\ (exists h',
        extend_multidict 2 mutable_map second_map [] two_maps_heap
        = Some (Return tt, h')
        /\ entries h' mutable_map = [("a", 1); ("b", 2); ("a", 3); ("x", 7)]
        /\ entries h' second_map = [("x", 7)])
  /\ extend_multidict 1000 mutable_map mutable_map [] two_maps_heap = None.
Proof.
  assert (Hne : md_items second_map <> md_items mutable_map) by discriminate.
  assert (Hfull : entries two_maps_heap mutable_map <> []) by discriminate.
  split; [reflexivity|]. split; [exact Hne|]. split; [exact Hfull|].
  destruct (extend_with_a_map mutable_map second_map [] two_maps_heap eq_refl)
    as (Hseparate & _ & _).
  destruct (extend_with_a_map mutable_map mutable_map [] two_maps_heap eq_refl)
    as (_ & Hshared & _).
  split.
  - destruct (Hseparate Hne) as (h' & _ & Hlive & Hself & Hother).
    exists h'. split; [apply Hlive; change (1 < 2); lia|]. split; [exact Hself|exact Hother].
  - exact (proj1 (Hshared Hfull 1000)).
Defined.

Close Scope string_scope.
